(** * A shallow embedding of the segment pipeline of m3u8_download

    The crate root ([src/main.rs]) declares only [mod utils]; the
    definitions below follow [src/utils/file.rs] (the Validator),
    [src/utils/download_segment.rs] (Fetcher, retry wrapper, Decryptor,
    Scheduler, Assembler and the batch driver).  Effects outside the
    program (the HTTP client, the [url] crate, the AES block cipher,
    ffmpeg, and the clean-up removals of [merge_segments]) are inputs:
    section variables or explicit oracle arguments.  The other file-system
    calls (creating, writing, opening and reading segment files, deleting a
    corrupt one) are taken to succeed. *)

From Stdlib Require Import String Ascii.
From Stdlib Require Import Strings.Byte NArith ArithRing.
From stdpp Require Import base gmap strings list.

Open Scope nat_scope.

(** Bytes of a file or an HTTP body, as Rust's [Vec<u8>]. *)
Abbreviation bytes := (list byte).

(** A directory's content: file name -> bytes.  A name that is absent is a
    file that does not exist ([Path::exists] is false, [File::open] fails). *)
Abbreviation dir := (gmap string bytes).

(* ------------------------------------------------------------------ *)
(** ** Validator: [is_valid_ts_file] of [src/utils/file.rs] *)

(** [file.read_exact(&mut [0u8; n])]: succeeds exactly when the file has at
    least [n] bytes, and then yields its first [n] bytes. *)
Definition read_exact (n : nat) (data : bytes) : option bytes :=
  if n <=? length data then Some (firstn n data) else None.

(** [File::open(path)] then [read_exact] of 4 bytes, then [buffer[0] == 0x47]. *)
Definition is_valid_ts_file (file : option bytes) : bool :=
  match file with
  | None => false
  | Some data =>
      match read_exact 4 data with
      | Some buffer => Byte.eqb (nth 0 buffer x00) x47
      | None => false
      end
  end.

(** The variant of the Validator kept in [src/utils/common.rs], a file that
    no [mod] declaration reaches: size at least 188, read 376 bytes, sync
    bytes at offsets 0 and 188. *)
Definition is_valid_ts_file_common (file : option bytes) : bool :=
  match file with
  | None => false
  | Some data =>
      if length data <? 188 then false
      else match read_exact (188 * 2) data with
           | None => false
           | Some buffer =>
               if negb (Byte.eqb (nth 0 buffer x00) x47) then false
               else if negb (Byte.eqb (nth 188 buffer x00) x47) then false
               else true
           end
  end.

(* ------------------------------------------------------------------ *)
(** ** Segment file names *)

(** Split a path on ['/'], keeping empty components. *)
Fixpoint split_slash (s : string) : list string :=
  match s with
  | EmptyString => [EmptyString]
  | String c rest =>
      if Ascii.eqb c "/"%char then EmptyString :: split_slash rest
      else match split_slash rest with
           | [] => [String c EmptyString]
           | w :: ws => String c w :: ws
           end
  end.

(** [Path::new(uri).file_name()] for a Unix path: the last component after
    dropping empty components and the ["."] components that
    [Path::components] skips; [None] when there is none or it is [".."]. *)
Definition path_file_name (uri : string) : option string :=
  let comps := List.filter (fun c => negb (String.eqb c "") && negb (String.eqb c "."))
                      (split_slash uri) in
  match last comps with
  | None => None
  | Some c => if String.eqb c ".." then None else Some c
  end.

Definition digit_char (d : nat) : ascii := ascii_of_nat (48 + d).

(** Decimal digits of [n] ([fuel] bounds the number of digits). *)
Fixpoint decimal_aux (fuel n : nat) (acc : string) : string :=
  match fuel with
  | O => acc
  | S fuel' =>
      let acc' := String (digit_char (n mod 10)) acc in
      if n <? 10 then acc' else decimal_aux fuel' (n / 10) acc'
  end.

Definition decimal (n : nat) : string := decimal_aux (S n) n "".

(** [format!("{:06}", n)]: left-padded with zeros to width 6. *)
Definition pad6 (n : nat) : string :=
  let s := decimal n in
  append (String.concat "" (repeat "0" (6 - String.length s))) s.

(** The file name of segment [index] in [try_download_segment] and
    [merge_segments]: the URI's file name, or [segment_{:06}.ts]. *)
Definition segment_filename (uri : string) (index : nat) : string :=
  match path_file_name uri with
  | Some name => name
  | None => append "segment_" (append (pad6 index) ".ts")
  end.

(* ------------------------------------------------------------------ *)
(** ** Errors and results *)

(** The [anyhow] errors the pipeline raises, by the message that builds them. *)
Inductive err :=
| InvalidKeyLength                 (** "AES 密钥长度必须为 16 字节" *)
| DecryptionError                  (** "解密失败" *)
| UrlError                         (** [Url::join] failed *)
| TransportError                   (** [send] or [bytes] failed *)
| HttpStatusError                  (** "HTTP 错误" *)
| FetchError (index retry : nat) (cause : err)  (** "片段 {} 下载失败，已重试 {} 次: {}" *)
| MissingSegment (path : string)   (** "片段文件不存在" *)
| FFmpegError                      (** "FFmpeg转换失败" *)
| RemoveTempError                  (** "删除临时文件失败" *)
| AllTasksFailed.                  (** "所有任务都失败了" *)

Inductive result (A : Type) :=
| Ok (a : A)
| Err (e : err).
Arguments Ok {A} a.
Arguments Err {A} e.

(* ------------------------------------------------------------------ *)
(** ** Decryptor: [decrypt_segment] *)

(** [(n as u128).to_be_bytes()] generalised to [k] bytes: big-endian,
    most significant byte first, modulo [256^k]. *)
Fixpoint be_bytes (k n : nat) : bytes :=
  match k with
  | O => []
  | S k' => be_bytes k' (n / 256) ++
            [match Byte.of_nat (n mod 256) with Some b => b | None => x00 end]
  end.

(** The unsigned integer a big-endian byte string encodes. *)
Definition be_value (bs : bytes) : nat :=
  fold_left (fun acc b => acc * 256 + Byte.to_nat b) bs 0.

(** [let iv_bytes = (segment_index as u128).to_be_bytes(); iv.copy_from_slice(&iv_bytes)] *)
Definition segment_iv (segment_index : nat) : bytes := be_bytes 16 segment_index.

Definition xor_byte (a b : byte) : byte :=
  match Byte.of_N (N.lxor (Byte.to_N a) (Byte.to_N b)) with
  | Some c => c
  | None => x00
  end.

Definition xor_block (a b : bytes) : bytes := zip_with xor_byte a b.

(** [Block::slice_as_chunks_mut]: the first [n] 16-byte blocks of [data]. *)
Fixpoint split_blocks (n : nat) (data : bytes) : list bytes :=
  match n with
  | O => []
  | S n' => firstn 16 data :: split_blocks n' (skipn 16 data)
  end.

(** [Pkcs7::unpad] (block-padding 0.3, strict): the last byte [n] must be in
    [1..bs] and the [n-1] bytes before it must all equal [n]. *)
Definition pkcs7_unpad (block : bytes) : option bytes :=
  let bs := length block in
  let nb := nth (bs - 1) block x00 in
  let n := Byte.to_nat nb in
  if (n =? 0) || (bs <? n) then None
  else
    let s := bs - n in
    if existsb (fun v => negb (Byte.eqb v nb)) (firstn (bs - 1 - s) (skipn s block))
    then None
    else Some (firstn s block).

(** [Padding::unpad_blocks] for a reversible padding: no block is an error;
    otherwise all blocks but the last, then the unpadded last block. *)
Definition unpad_blocks (blocks : list bytes) : option bytes :=
  match last blocks with
  | None => None
  | Some lb =>
      match pkcs7_unpad lb with
      | Some p => Some (List.concat (removelast blocks) ++ p)
      | None => None
      end
  end.

Section Decryptor.

(** The AES-128 block decryption of the [aes] crate: key, one 16-byte block,
    gives one 16-byte block. *)
Variable aes128_decrypt_block : bytes -> bytes -> bytes.

(** [cbc::Decryptor::decrypt_blocks_mut]: [P_i = D_K(C_i) xor C_(i-1)] with
    [C_(-1) = IV]. *)
Fixpoint cbc_decrypt_blocks (key prev : bytes) (blocks : list bytes) : list bytes :=
  match blocks with
  | [] => []
  | c :: cs => xor_block (aes128_decrypt_block key c) prev :: cbc_decrypt_blocks key c cs
  end.

(** [cipher.decrypt_padded_mut::<Pkcs7>(&mut buf)]: a non-empty tail is an
    [UnpadError]; otherwise decrypt every block, then unpad. *)
Definition decrypt_padded (key iv data : bytes) : option bytes :=
  if negb (length data mod 16 =? 0) then None
  else unpad_blocks (cbc_decrypt_blocks key iv (split_blocks (length data / 16) data)).

(** [decrypt_segment(data, key, segment_index)] of [src/downloader/encryption.rs],
    identical to the method [M3u8Downloader::decrypt_segment]. *)
Definition decrypt_segment (data key : bytes) (segment_index : nat) : result bytes :=
  if negb (length key =? 16) then Err InvalidKeyLength
  else
    let iv := segment_iv segment_index in
    match decrypt_padded key iv data with
    | Some decrypted_data => Ok decrypted_data
    | None => Err DecryptionError
    end.

End Decryptor.

(* ------------------------------------------------------------------ *)
(** ** Segment Fetcher: [try_download_segment] and [download_segment] *)

(** The state the fetch tasks share: the download directory, the
    [DownloadStats] counters behind the mutex, and how many HTTP requests
    have been issued so far (the index of the next response), and how many
    [fs::remove_file] calls have been made (the index of the next outcome). *)
Record St := mkSt {
  files : dir;
  completed_segments : nat;
  downloaded_bytes : nat;
  net_calls : nat;
  remove_calls : nat
}.

Definition set_files (fs : dir) (st : St) : St :=
  mkSt fs (completed_segments st) (downloaded_bytes st) (net_calls st) (remove_calls st).
Definition incr_completed (st : St) : St :=
  mkSt (files st) (S (completed_segments st)) (downloaded_bytes st) (net_calls st) (remove_calls st).
Definition add_bytes (n : nat) (st : St) : St :=
  mkSt (files st) (completed_segments st) (downloaded_bytes st + n) (net_calls st) (remove_calls st).
Definition incr_net (st : St) : St :=
  mkSt (files st) (completed_segments st) (downloaded_bytes st) (S (net_calls st)) (remove_calls st).
Definition incr_remove (st : St) : St :=
  mkSt (files st) (completed_segments st) (downloaded_bytes st) (net_calls st) (S (remove_calls st)).

(** What one [self.client.get(url).send().await] gives: [None] when the
    request fails, else the status ([is_success]) and the body, [None] when
    reading [response.bytes()] fails. *)
Abbreviation response := (option (bool * option bytes)).

(** The trace a segment download leaves: each call of
    [try_download_segment], each [error!] retry line and each [sleep]. *)
Inductive event :=
| Attempt
| RetryLog (retry_count : nat)
| Sleep (ms : nat).

Section Fetcher.

Variable aes128_decrypt_block : bytes -> bytes -> bytes.
(** [self.base_url.join(url)] of the [url] crate. *)
Variable base_url_join : string -> option string.
(** The server: the response to the [n]-th request, for a URL. *)
Variable http_get : nat -> string -> response.
(** The file system: whether the [n]-th [fs::remove_file] call, on a file
    name, succeeds. *)
Variable remove_file_ok : nat -> string -> bool.

(** [M3u8Downloader::resolve_url] *)
Definition resolve_url (url : string) : option string :=
  if String.prefix "http://" url || String.prefix "https://" url then Some url
  else base_url_join url.

(** Steps 4 to 8 of [try_download_segment] (from [resolve_url] on); the
    [File::create] and [write_all] of the segment file succeed. *)
Definition fetch_segment (index : nat) (uri name : string) (key : option bytes)
    (st : St) : result unit * St :=
  match resolve_url uri with
  | None => (Err UrlError, st)
  | Some segment_url =>
      let st1 := incr_net st in
      match http_get (net_calls st) segment_url with
      | None => (Err TransportError, st1)
      | Some (false, _) => (Err HttpStatusError, st1)
      | Some (true, None) => (Err TransportError, st1)
      | Some (true, Some data) =>
          let st2 := add_bytes (length data) st1 in
          match key with
          | None => (Ok tt, set_files (<[name := data]> (files st2)) st2)
          | Some key_data =>
              match decrypt_segment aes128_decrypt_block data key_data index with
              | Err e => (Err e, st2)
              | Ok data' => (Ok tt, set_files (<[name := data']> (files st2)) st2)
              end
          end
      end
  end.

(** [M3u8Downloader::try_download_segment]: skip an existing file that the
    Validator accepts; try to delete one it rejects ([fs::remove_file]; a
    failure is only logged and the file stays); then fetch. *)
Definition try_download_segment (index : nat) (uri : string) (key : option bytes)
    (st : St) : result unit * St :=
  let segment_filename := segment_filename uri index in
  match files st !! segment_filename with
  | Some data =>
      if is_valid_ts_file (Some data) then (Ok tt, st)
      else
        let st1 := incr_remove st in
        let st2 := if remove_file_ok (remove_calls st) segment_filename
                   then set_files (delete segment_filename (files st1)) st1
                   else st1 in
        fetch_segment index uri segment_filename key st2
  | None => fetch_segment index uri segment_filename key st
  end.

End Fetcher.

Section Retry.

(** One attempt: [self.try_download_segment(index, segment, key)]. *)
Variable try_dl : St -> result unit * St.
Variable retry index : nat.

(** The [loop] of [M3u8Downloader::download_segment]; [fuel] bounds the
    iterations, [S retry] of them are enough (see [retry_loop_fail] below). *)
Fixpoint retry_loop (fuel retry_count : nat) (st : St) : result unit * St * list event :=
  match fuel with
  | O => (Err (FetchError index retry UrlError), st, [])
  | S fuel' =>
      match try_dl st with
      | (Ok _, st') => (Ok tt, incr_completed st', [Attempt])
      | (Err e, st') =>
          let retry_count' := S retry_count in
          if retry <? retry_count' then
            (Err (FetchError index retry e), st', [Attempt])
          else
            let '(r, st'', tr) := retry_loop fuel' retry_count' st' in
            (r, st'', Attempt :: RetryLog retry_count' :: Sleep (1000 * retry_count') :: tr)
      end
  end.

Definition download_segment (st : St) : result unit * St * list event :=
  retry_loop (S retry) 0 st.

(** The state before the [j+1]-th attempt. *)
Definition attempt_state (st : St) (j : nat) : St :=
  Nat.iter j (fun s => snd (try_dl s)) st.

(** The trace of the failed attempts [rc+1 .. rc+m] and their back-off. *)
Definition retry_events (rc m : nat) : list event :=
  List.concat (map (fun i => [Attempt; RetryLog i; Sleep (1000 * i)]) (seq (S rc) m)).

End Retry.

(** [M3u8Downloader::download_segment] with [try_download_segment]. *)
Definition download_segment_full (aes : bytes -> bytes -> bytes)
    (join : string -> option string) (http_get : nat -> string -> response)
    (remove_file_ok : nat -> string -> bool)
    (retry index : nat) (uri : string) (key : option bytes) (st : St)
    : result unit * St * list event :=
  download_segment (try_download_segment aes join http_get remove_file_ok index uri key)
    retry index st.

(* ------------------------------------------------------------------ *)
(** ** Assembler: [M3u8Downloader::merge_segments] *)

(** What the assembler logs about the clean-up. *)
Inductive merge_log :=
| LogRemoveDirFailed   (** "删除下载目录失败" *)
| LogRemovedDir        (** "已删除下载目录" *)
| LogConverted.        (** "视频文件已转换为MP4" *)

(** The [for (index, segment) in segments.iter().enumerate()] loop: each
    segment file must exist; its bytes are appended to the temporary file
    [temp] (opened once by [File::create], so every [write_all] appends). *)
Fixpoint merge_loop (temp : string) (uris : list string) (index : nat) (fs : dir)
    : result unit * dir :=
  match uris with
  | [] => (Ok tt, fs)
  | uri :: rest =>
      let segment_filename := segment_filename uri index in
      match fs !! segment_filename with
      | None => (Err (MissingSegment segment_filename), fs)
      | Some buffer =>
          let written := default [] (fs !! temp) in
          merge_loop temp rest (S index) (<[temp := written ++ buffer]> fs)
      end
  end.

(** The temporary file: [{output_filename}_temp.ts] in the download directory. *)
Definition temp_ts_name (output_filename : string) : string :=
  append output_filename "_temp.ts".

(** The oracles of the external effects of [merge_segments]. *)
Record merge_env := {
  (** [Command::new("ffmpeg")...output()] on the temp file's bytes: [None]
      when it cannot be run, else whether the exit status is a success. *)
  ffmpeg : bytes -> option bool;
  (** whether [fs::remove_file(&temp_ts_path)] succeeds *)
  remove_temp_ok : bool;
  (** whether [fs::remove_dir_all(&self.download_dir)] succeeds *)
  remove_dir_ok : bool;
  (** when it fails: the entries it left in place (it may have removed
      some or all of the others before failing) *)
  remove_dir_kept : string -> bool
}.

(** [M3u8Downloader::merge_segments]: the result, the download directory
    afterwards and the clean-up log. *)
Definition merge_segments (env : merge_env) (output_filename : string)
    (uris : list string) (fs : dir) : result unit * dir * list merge_log :=
  let temp := temp_ts_name output_filename in
  match merge_loop temp uris 0 (<[temp := []]> fs) with
  | (Err e, fs1) => (Err e, fs1, [])
  | (Ok _, fs1) =>
      match ffmpeg env (default [] (fs1 !! temp)) with
      | None | Some false => (Err FFmpegError, fs1, [])
      | Some true =>
          if negb (remove_temp_ok env) then (Err RemoveTempError, fs1, [])
          else
            let fs2 := delete temp fs1 in
            if remove_dir_ok env then (Ok tt, ∅, [LogRemovedDir; LogConverted])
            else (Ok tt, filter (fun kv => remove_dir_kept env kv.1 = true) fs2,
                  [LogRemoveDirFailed; LogConverted])
      end
  end.

(** The intermediate stream: the temp file's content when the loop ends. *)
Definition merged_stream (output_filename : string) (uris : list string) (fs : dir)
    : result bytes :=
  let temp := temp_ts_name output_filename in
  match merge_loop temp uris 0 (<[temp := []]> fs) with
  | (Err e, _) => Err e
  | (Ok _, fs1) => Ok (default [] (fs1 !! temp))
  end.

(* ------------------------------------------------------------------ *)
(** ** Scheduler: the semaphore of [M3u8Downloader::download] *)

(** A spawned task: waiting in [semaphore.acquire()], running
    [download_segment] while it holds [_permit], or finished (the permit
    dropped with the async block). *)
Inductive task_state := Waiting | Running | Done.

Record sched := mkSched {
  tasks : list task_state;
  available_permits : nat
}.

(** [Semaphore::new(self.concurrent)] and one [tokio::spawn] per segment. *)
Definition sched_init (n_segments concurrent : nat) : sched :=
  mkSched (repeat Waiting n_segments) concurrent.

(** Any interleaving of the tasks: a waiting task takes a permit when one is
    available; a running task ends and gives its permit back. *)
Inductive sched_step : sched -> sched -> Prop :=
| step_acquire ts p i :
    ts !! i = Some Waiting -> 0 < p ->
    sched_step (mkSched ts p) (mkSched (<[i := Running]> ts) (p - 1))
| step_finish ts p i :
    ts !! i = Some Running ->
    sched_step (mkSched ts p) (mkSched (<[i := Done]> ts) (S p)).

Definition is_running (t : task_state) : bool :=
  match t with Running => true | _ => false end.

Definition running_count (s : sched) : nat :=
  length (List.filter is_running (tasks s)).

(* ------------------------------------------------------------------ *)
(** ** Batch driver: [process_download_tasks] *)

Record DownloadTask := mkTask { task_name : string; task_url : string; task_output_dir : string }.

Section Batch.

(** The world the tasks act on, and [process_download_task] on it. *)
Variable W : Type.
Variable process_download_task : DownloadTask -> W -> result unit * W.

(** The [for (i, task) in tasks.iter().enumerate()] loop: pushes the task's
    name onto [successful_tasks] or [(name, error)] onto [failed_tasks];
    [attempts] records each call of [process_download_task] and its result. *)
Fixpoint process_loop (ts : list DownloadTask) (w : W)
    (successful_tasks : list string) (failed_tasks : list (string * err))
    (attempts : list (DownloadTask * result unit))
    : list string * list (string * err) * list (DownloadTask * result unit) * W :=
  match ts with
  | [] => (successful_tasks, failed_tasks, attempts, w)
  | task :: rest =>
      match process_download_task task w with
      | (Ok _, w') =>
          process_loop rest w' (successful_tasks ++ [task_name task]) failed_tasks
            (attempts ++ [(task, Ok tt)])
      | (Err e, w') =>
          process_loop rest w' successful_tasks (failed_tasks ++ [(task_name task, e)])
            (attempts ++ [(task, Err e)])
      end
  end.

Definition process_download_tasks (ts : list DownloadTask) (w : W)
    : result unit * list (DownloadTask * result unit) :=
  let '(successful_tasks, failed_tasks, attempts, _) := process_loop ts w [] [] [] in
  if length failed_tasks =? length ts then (Err AllTasksFailed, attempts)
  else (Ok tt, attempts).

End Batch.

Definition is_err {A} (r : result A) : bool :=
  match r with Err _ => true | Ok _ => false end.

(* ------------------------------------------------------------------ *)
(** ** Concrete inputs and trace projections used below *)

Definition ts_packets_2 : bytes := x47 :: repeat x00 187 ++ x47 :: repeat x00 187.

Definition identity_block (_ b : bytes) : bytes := b.

(** The back-off delays and the retry lines of a trace. *)
Fixpoint sleeps (tr : list event) : list nat :=
  match tr with
  | [] => []
  | Sleep ms :: tr' => ms :: sleeps tr'
  | _ :: tr' => sleeps tr'
  end.

Fixpoint retry_logs (tr : list event) : list nat :=
  match tr with
  | [] => []
  | RetryLog n :: tr' => n :: retry_logs tr'
  | _ :: tr' => retry_logs tr'
  end.

Definition no_join (_ : string) : option string := None.
Definition no_server (_ : nat) (_ : string) : response := None.

Definition resume_state0 : St :=
  mkSt {[ "seg0.ts" := [x47; x00; x00; x00] ]} 0 0 0 0.

Definition always_fail (st : St) : result unit * St := (Err TransportError, incr_net st).

(** A segment file the Validator rejects (first byte not [0x47]), and a
    server that answers every request with one 4-byte body. *)
Definition corrupt_state0 : St := mkSt {[ "seg0.ts" := [x00; x00; x00; x00] ]} 0 0 0 0.
Definition remove_ok (_ : nat) (_ : string) : bool := true.
Definition remove_fails (_ : nat) (_ : string) : bool := false.
Definition one_server (_ : nat) (_ : string) : response := Some (true, Some [x47; x01; x02; x03]).

Definition abc_dir : dir :=
  {[ "a.ts" := [x41]; "b.ts" := [x42; x42]; "c.ts" := [x43] ]}.

Definition cleanup_env (remove_temp remove_dir : bool) : merge_env :=
  {| ffmpeg := fun _ => Some true; remove_temp_ok := remove_temp; remove_dir_ok := remove_dir;
     remove_dir_kept := fun _ => true |}.

Definition ok_names (attempts : list (DownloadTask * result unit)) : list string :=
  map (fun a => task_name (fst a)) (List.filter (fun a => negb (is_err (snd a))) attempts).
Definition err_names (attempts : list (DownloadTask * result unit)) : list string :=
  map (fun a => task_name (fst a)) (List.filter (fun a => is_err (snd a)) attempts).

(* ------------------------------------------------------------------ *)
(** ** Observations used by the further properties *)

Definition is_waiting (t : task_state) : bool :=
  match t with Waiting => true | _ => false end.

(** Whether a string contains the character [c]. *)
Fixpoint has_char (c : ascii) (s : string) : bool :=
  match s with
  | EmptyString => false
  | String c' s' => Ascii.eqb c' c || has_char c s'
  end.

(** The number a string of decimal digits denotes, read left to right
    starting from [acc] (the inverse of [decimal] and [pad6]). *)
Fixpoint decimal_value (acc : nat) (s : string) : nat :=
  match s with
  | EmptyString => acc
  | String c s' => decimal_value (acc * 10 + (nat_of_ascii c - 48)) s'
  end.

(** The sending side [decrypt_segment] is meant to undo (not part of the
    program): PKCS#7 padding to the next multiple of 16 bytes, a whole
    block of padding when the length is already a multiple, then AES-128-CBC
    encryption, [C_i = E_K(P_i xor C_(i-1))] with [C_(-1) = IV]. *)
Definition pad_byte (n : nat) : byte :=
  match Byte.of_nat n with Some b => b | None => x00 end.

Definition pkcs7_pad (p : bytes) : bytes :=
  let n := 16 - length p mod 16 in p ++ repeat (pad_byte n) n.

Fixpoint cbc_encrypt_blocks (aes128_encrypt_block : bytes -> bytes -> bytes)
    (key prev : bytes) (blocks : list bytes) : list bytes :=
  match blocks with
  | [] => []
  | b :: bs =>
      let c := aes128_encrypt_block key (xor_block b prev) in
      c :: cbc_encrypt_blocks aes128_encrypt_block key c bs
  end.

Definition cbc_pkcs7_encrypt (aes128_encrypt_block : bytes -> bytes -> bytes)
    (key iv p : bytes) : bytes :=
  let padded := pkcs7_pad p in
  List.concat (cbc_encrypt_blocks aes128_encrypt_block key iv
                 (split_blocks (length padded / 16) padded)).

(* ------------------------------------------------------------------ *)
(** ** Key lookup: [extract_encryption_key] and [download_key] *)

Definition newline : ascii := "010"%char.
Definition carriage_return : ascii := "013"%char.
Definition quote : ascii := "034"%char.

(** [str::find(pat)]: the byte offset of the first occurrence. *)
Fixpoint str_find (pat s : string) : option nat :=
  if String.prefix pat s then Some 0
  else match s with
       | EmptyString => None
       | String _ s' => option_map S (str_find pat s')
       end.

(** [&s[n..]] and [&s[..n]] (the offsets used below are in range). *)
Fixpoint str_drop (n : nat) (s : string) : string :=
  match n, s with
  | O, _ => s
  | S _, EmptyString => EmptyString
  | S n', String _ s' => str_drop n' s'
  end.

Fixpoint str_take (n : nat) (s : string) : string :=
  match n, s with
  | O, _ => EmptyString
  | S _, EmptyString => EmptyString
  | S n', String c s' => String c (str_take n' s')
  end.

(** Remove one trailing ['\r']. *)
Fixpoint strip_cr (s : string) : string :=
  match s with
  | EmptyString => EmptyString
  | String c EmptyString => if Ascii.eqb c carriage_return then EmptyString else String c EmptyString
  | String c s' => String c (strip_cr s')
  end.

(** [str::lines]: split after each ['\n'], dropping it and a ['\r'] just
    before it; a last line without ['\n'] is kept as it is, an empty one is
    not a line.  [cur] is the current line so far. *)
Fixpoint lines_acc (s cur : string) : list string :=
  match s with
  | EmptyString => if String.eqb cur "" then [] else [cur]
  | String c s' =>
      if Ascii.eqb c newline then strip_cr cur :: lines_acc s' ""
      else lines_acc s' (cur ++ String c "")
  end.

Definition lines (s : string) : list string := lines_acc s "".

(** The text [URI=] followed by a double quote. *)
Definition uri_marker : string := "URI=" ++ String quote "".

(** The body of the [for] loop of [extract_encryption_key] for one line:
    a line starting with [#EXT-X-KEY:] that has [uri_marker] and a
    closing double quote after it gives the text in between. *)
Definition key_uri_of_line (line : string) : option string :=
  if String.prefix "#EXT-X-KEY:" line then
    match str_find uri_marker line with
    | Some uri_start =>
        let uri_start := uri_start + 5 in
        match str_find (String quote "") (str_drop uri_start line) with
        | Some uri_end => Some (str_take uri_end (str_drop uri_start line))
        | None => None
        end
    | None => None
    end
  else None.

(** The loop: the first line that gives a key URI. *)
Fixpoint first_key_uri (ls : list string) : option string :=
  match ls with
  | [] => None
  | l :: ls' =>
      match key_uri_of_line l with
      | Some key_uri => Some key_uri
      | None => first_key_uri ls'
      end
  end.

(** [download_key]: one request for the resolved URI ([n] numbers it); a
    non-success status is the error "密钥下载失败"; the body, whatever its
    length, is the key. *)
Definition download_key (join : string -> option string) (http : nat -> string -> response)
    (n : nat) (key_uri : string) : result bytes :=
  match resolve_url join key_uri with
  | None => Err UrlError
  | Some full_url =>
      match http n full_url with
      | None => Err TransportError
      | Some (false, _) => Err HttpStatusError
      | Some (true, None) => Err TransportError
      | Some (true, Some body) => Ok body
      end
  end.

(** [extract_encryption_key] (the method of [M3u8Downloader] and the
    function of [src/downloader/encryption.rs] are the same code). *)
Definition extract_encryption_key (join : string -> option string)
    (http : nat -> string -> response) (n : nat) (m3u8_content : string)
    : result (option bytes) :=
  match first_key_uri (lines m3u8_content) with
  | None => Ok None
  | Some key_uri =>
      match download_key join http n key_uri with
      | Ok key => Ok (Some key)
      | Err e => Err e
      end
  end.


(* ------------------------------------------------------------------ *)
(** ** The end of [M3u8Downloader::download]: checking the tasks' results *)

(** What [join_all] yields for one spawned segment task: its
    [download_segment] result, or a [JoinError] when the task panicked. *)
Inductive task_outcome :=
| TaskReturned (r : result unit)
| TaskPanicked.

(** The errors [download] raises after [join_all]. *)
Inductive download_err :=
| SegmentFailed (i : nat) (e : err)   (** "片段 {} 下载失败: {}" *)
| TaskFailed (i : nat)                (** "片段 {} 任务失败: {}" *)
| MergeFailed (e : err).              (** the [?] on [merge_segments] *)

Inductive download_result :=
| DownloadOk
| DownloadErr (e : download_err).

(** The [for (i, result) in results.into_iter().enumerate()] check. *)
Fixpoint check_results (i : nat) (results : list task_outcome) : option download_err :=
  match results with
  | [] => None
  | TaskReturned (Ok _) :: rest => check_results (S i) rest
  | TaskReturned (Err e) :: _ => Some (SegmentFailed i e)
  | TaskPanicked :: _ => Some (TaskFailed i)
  end.

(** The check, then [self.merge_segments(&segments).await?]. *)
Definition download_finish (env : merge_env) (output_filename : string)
    (uris : list string) (fs : dir) (results : list task_outcome)
    : download_result * dir * list merge_log :=
  match check_results 0 results with
  | Some e => (DownloadErr e, fs, [])
  | None =>
      match merge_segments env output_filename uris fs with
      | (Ok _, fs', logs) => (DownloadOk, fs', logs)
      | (Err e, fs', logs) => (DownloadErr (MergeFailed e), fs', logs)
      end
  end.

(* ------------------------------------------------------------------ *)
(** ** [merge_segments] of [src/downloader/segment.rs] *)

(** The variant of the assembler in [src/downloader/segment.rs]: the temp
    file is [temp.ts], and [let _ = fs::remove_file(&temp_ts_path)] ignores
    the removal's outcome; the download directory is not removed. *)
Definition merge_segments_downloader (env : merge_env) (uris : list string) (fs : dir)
    : result unit * dir :=
  let temp := "temp.ts"%string in
  match merge_loop temp uris 0 (<[temp := []]> fs) with
  | (Err e, fs1) => (Err e, fs1)
  | (Ok _, fs1) =>
      match ffmpeg env (default [] (fs1 !! temp)) with
      | None | Some false => (Err FFmpegError, fs1)
      | Some true => (Ok tt, if remove_temp_ok env then delete temp fs1 else fs1)
      end
  end.

(* ------------------------------------------------------------------ *)
(** ** [process_download_tasks] of [src/downloader/mod.rs] *)

(** [is_already_downloaded(task, download_dir)] of [src/utils/file.rs]:
    [{name}.mp4] exists in the directory and is not empty. *)
Definition is_already_downloaded (task : DownloadTask) (download_dir : dir) : bool :=
  match download_dir !! (task_name task ++ ".mp4")%string with
  | Some data => 0 <? length data
  | None => false
  end.

(** Its errors: the [create_dir_all] of [./output] failed, or every task failed. *)
Inductive batch_err :=
| CreateOutputDirFailed   (** "Failed to create download directory: {}" *)
| AllTasksFailedMsg.      (** "所有任务都失败了" *)

Section BatchSkip.

Variable W : Type.
(** [process_download_task(task, max_concurrent, i + 1)] on the world. *)
Variable process_download_task : DownloadTask -> W -> result unit * W.
(** The content of [./output] in a world. *)
Variable output_listing : W -> dir.
(** [create_dir_all("./output")] when it does not exist: [None] on failure. *)
Variable create_output_dir : W -> option W.

(** The loop: a task already downloaded is pushed onto [skipped_tasks] and
    not run; the others as in [src/utils]. *)
Fixpoint process_loop_skip (ts : list DownloadTask) (w : W)
    (successful_tasks skipped_tasks : list string) (failed_tasks : list (string * err))
    (attempts : list (DownloadTask * result unit))
    : list string * list string * list (string * err) * list (DownloadTask * result unit) * W :=
  match ts with
  | [] => (successful_tasks, skipped_tasks, failed_tasks, attempts, w)
  | task :: rest =>
      if is_already_downloaded task (output_listing w) then
        process_loop_skip rest w successful_tasks (skipped_tasks ++ [task_name task])
          failed_tasks attempts
      else
        match process_download_task task w with
        | (Ok _, w') =>
            process_loop_skip rest w' (successful_tasks ++ [task_name task]) skipped_tasks
              failed_tasks (attempts ++ [(task, Ok tt)])
        | (Err e, w') =>
            process_loop_skip rest w' successful_tasks skipped_tasks
              (failed_tasks ++ [(task_name task, e)]) (attempts ++ [(task, Err e)])
        end
  end.

Definition process_download_tasks_skip (ts : list DownloadTask) (w : W)
    : option batch_err * list (DownloadTask * result unit) :=
  match create_output_dir w with
  | None => (Some CreateOutputDirFailed, [])
  | Some w0 =>
      let '(successful_tasks, skipped_tasks, failed_tasks, attempts, _) :=
        process_loop_skip ts w0 [] [] [] [] in
      if length failed_tasks =? length ts then (Some AllTasksFailedMsg, attempts)
      else (None, attempts)
  end.

End BatchSkip.


Definition task_returned_ok (o : task_outcome) : Prop :=
  exists u, o = TaskReturned (Ok u).

Definition skip_task_a : DownloadTask := mkTask "a" "http://h/a.m3u8" "".
Definition skip_task_b : DownloadTask := mkTask "b" "http://h/b.m3u8" "".

(* ================================================================== *)
(** * Properties *)

(* ------------------------------------------------------------------ *)
(** ** Segment file names *)

Example segment_filename_ex1 : segment_filename "hls/a/seg-12.ts?k=1" 3 = "seg-12.ts?k=1".
Proof. reflexivity. Qed.

Example segment_filename_ex2 : segment_filename "hls/.." 42 = "segment_000042.ts".
Proof. reflexivity. Qed.

Example segment_filename_ex3 : segment_filename "a/b/./" 0 = "b".
Proof. reflexivity. Qed.

(* ------------------------------------------------------------------ *)
(** ** Validator *)

(** What the Validator of [src/utils/file.rs] accepts: an existing file of
    at least 4 bytes whose first byte is [0x47]. *)
Lemma is_valid_ts_file_iff (data : bytes) :
  is_valid_ts_file (Some data) = true <-> 4 <= length data /\ nth 0 data x00 = x47.
Proof.
  unfold is_valid_ts_file, read_exact.
  destruct (Nat.leb_spec 4 (length data)) as [Hle | Hlt].
  - destruct data as [|b rest]; [simpl in Hle; lia |].
    simpl in *. split.
    + intros H. split; [lia | now apply byte_dec_bl].
    + intros [_ ->]. reflexivity.
  - split; [discriminate | lia].
Qed.

Example ts_packets_2_length : length ts_packets_2 = 376.
Proof. reflexivity. Qed.

(** ** Claim C2 (counterexample): a 4-byte file [47 00 00 00], shorter than
    two transport-stream packets (376 bytes), is accepted by the Validator. *)
Lemma C2_short_file_accepted :
  length [x47; x00; x00; x00] < 376 /\ is_valid_ts_file (Some [x47; x00; x00; x00]) = true.
Proof. split; [simpl; lia | reflexivity]. Qed.

(** ** Claim C2 (as amended): the Validator rejects a missing file, a
    zero-byte file, any file shorter than 4 bytes, and any file whose first
    byte is not the sync byte [0x47]; it accepts every file of at least 4
    bytes starting with [0x47], in particular a well-formed two-packet file
    with sync bytes at offsets 0 and 188. *)
Theorem C2_validator_header_check :
  is_valid_ts_file None = false /\
  is_valid_ts_file (Some []) = false /\
  (forall data : bytes, length data < 4 -> is_valid_ts_file (Some data) = false) /\
  (forall data : bytes, nth 0 data x00 <> x47 -> is_valid_ts_file (Some data) = false) /\
  (forall data : bytes, 4 <= length data -> nth 0 data x00 = x47 ->
     is_valid_ts_file (Some data) = true) /\
  (forall data : bytes, 376 <= length data -> nth 0 data x00 = x47 ->
     nth 188 data x00 = x47 -> is_valid_ts_file (Some data) = true).
Proof.
  repeat split.
  - intros data Hlt. destruct (is_valid_ts_file (Some data)) eqn:E; [|reflexivity].
    apply is_valid_ts_file_iff in E. lia.
  - intros data Hne. destruct (is_valid_ts_file (Some data)) eqn:E; [|reflexivity].
    apply is_valid_ts_file_iff in E. tauto.
  - intros data Hl H0. apply is_valid_ts_file_iff. auto.
  - intros data Hl H0 _. apply is_valid_ts_file_iff. split; [lia | exact H0].
Qed.

Lemma C2_validator_header_check_witness :
  is_valid_ts_file (Some [x00; x47; x47; x47]) = false /\
  is_valid_ts_file (Some [x47; x47]) = false /\
  is_valid_ts_file (Some [x47; x01; x02; x03; x04]) = true /\
  is_valid_ts_file (Some ts_packets_2) = true.
Proof.
  destruct C2_validator_header_check as (_ & _ & Hshort & Hsync & Hok & H2).
  split; [apply Hsync; discriminate |].
  split; [apply Hshort; simpl; lia |].
  split; [apply Hok; [simpl; lia | reflexivity] |].
  apply H2; [apply Nat.leb_le; reflexivity | reflexivity | reflexivity].
Defined.

(** The unreached variant of [src/utils/common.rs] does reject every file
    shorter than two packets. *)
Lemma is_valid_ts_file_common_short (data : bytes) :
  length data < 376 -> is_valid_ts_file_common (Some data) = false.
Proof.
  intros H. unfold is_valid_ts_file_common, read_exact.
  destruct (length data <? 188); [reflexivity |].
  destruct (Nat.leb_spec (188 * 2) (length data)); [lia | reflexivity].
Qed.

(* ------------------------------------------------------------------ *)
(** ** Decryptor *)

Lemma length_be_bytes k n : length (be_bytes k n) = k.
Proof.
  revert n. induction k as [|k IH]; intros n; [reflexivity |].
  simpl. rewrite length_app, IH. simpl. lia.
Qed.

Lemma be_value_snoc l b : be_value (l ++ [b]) = be_value l * 256 + Byte.to_nat b.
Proof. unfold be_value. now rewrite fold_left_app. Qed.

Lemma to_nat_of_nat_mod n :
  Byte.to_nat (match Byte.of_nat (n mod 256) with Some b => b | None => x00 end) = n mod 256.
Proof.
  destruct (Byte.of_nat (n mod 256)) as [b|] eqn:E.
  - now apply Byte.to_of_nat.
  - apply Byte.of_nat_None_iff in E. pose proof (Nat.mod_upper_bound n 256). lia.
Qed.

Lemma be_value_be_bytes k n : be_value (be_bytes k n) = n mod 256 ^ k.
Proof.
  revert n. induction k as [|k IH]; intros n.
  - rewrite Nat.pow_0_r, Nat.mod_1_r. reflexivity.
  - cbn [be_bytes]. rewrite be_value_snoc, IH, to_nat_of_nat_mod.
    rewrite Nat.pow_succ_r', (Nat.Div0.mod_mul_r n 256 (256 ^ k)).
    lia.
Qed.

(** ** Claim C3: with a 16-byte key, [decrypt_segment] decrypts with the
    IV [segment_iv position], the position written as a 16-byte big-endian
    unsigned integer (its value is the position modulo 2^128, the position
    itself for every [usize]); nothing else enters the IV.  The plaintext is
    AES-128-CBC decryption under that IV followed by PKCS#7 unpadding, so the
    result is a function of ciphertext, key and position alone. *)
Theorem C3_iv_from_position (aes : bytes -> bytes -> bytes) (data key : bytes) (position : nat) :
  length key = 16 ->
  decrypt_segment aes data key position =
    match decrypt_padded aes key (be_bytes 16 position) data with
    | Some plaintext => Ok plaintext
    | None => Err DecryptionError
    end /\
  segment_iv position = be_bytes 16 position /\
  length (segment_iv position) = 16 /\
  be_value (segment_iv position) = position mod 256 ^ 16.
Proof.
  intros Hkey. split; [| split; [reflexivity | split]].
  - unfold decrypt_segment. rewrite Hkey. reflexivity.
  - apply length_be_bytes.
  - apply be_value_be_bytes.
Qed.

Lemma C3_iv_from_position_witness :
  length (repeat x00 16) = 16 /\
  decrypt_segment identity_block (repeat x00 16) (repeat x00 16) 1 =
    match decrypt_padded identity_block (repeat x00 16) (be_bytes 16 1) (repeat x00 16) with
    | Some plaintext => Ok plaintext
    | None => Err DecryptionError
    end /\
  segment_iv 1 = be_bytes 16 1 /\
  length (segment_iv 1) = 16 /\
  be_value (segment_iv 1) = 1 mod 256 ^ 16.
Proof.
  split; [reflexivity |].
  apply (C3_iv_from_position identity_block (repeat x00 16) (repeat x00 16) 1).
  reflexivity.
Defined.

Example segment_iv_5 : segment_iv 5 = repeat x00 15 ++ [x05].
Proof. reflexivity. Qed.

Example segment_iv_258 : segment_iv 258 = repeat x00 14 ++ [x01; x02].
Proof. reflexivity. Qed.

(** ** Claim C6: [decrypt_segment] fails with [InvalidKeyLength] exactly
    when the key is not 16 bytes long, whatever the ciphertext, position and
    block cipher; with a 16-byte key it fails with [DecryptionError] exactly
    when the ciphertext length is not a multiple of 16 or the PKCS#7
    unpadding of the CBC-decrypted blocks fails (an empty ciphertext has no
    padding block and fails it), and otherwise returns the unpadded
    plaintext. *)
Theorem C6_decrypt_errors (aes : bytes -> bytes -> bytes) (data key : bytes) (position : nat) :
  (decrypt_segment aes data key position = Err InvalidKeyLength <-> length key <> 16) /\
  (decrypt_segment aes data key position = Err DecryptionError <->
     length key = 16 /\
     (length data mod 16 <> 0 \/
      unpad_blocks (cbc_decrypt_blocks aes key (segment_iv position)
                      (split_blocks (length data / 16) data)) = None)) /\
  (forall plaintext,
     decrypt_segment aes data key position = Ok plaintext <->
     length key = 16 /\ length data mod 16 = 0 /\
     unpad_blocks (cbc_decrypt_blocks aes key (segment_iv position)
                     (split_blocks (length data / 16) data)) = Some plaintext).
Proof.
  unfold decrypt_segment, decrypt_padded. cbv zeta.
  destruct (Nat.eqb_spec (length key) 16) as [Hk | Hk]; cbn [negb].
  - destruct (Nat.eqb_spec (length data mod 16) 0) as [Hm | Hm]; cbn [negb].
    + destruct (unpad_blocks _) as [p|] eqn:Hu.
      * split; [split; [discriminate | intros H; contradiction] |].
        split; [split; [discriminate | intros (_ & [H|H]); [contradiction | discriminate]] |].
        intros q. split; [intros H; injection H as <-; auto | intros (_ & _ & H); congruence].
      * split; [split; [discriminate | intros H; contradiction] |].
        split; [split; [intros _; auto | reflexivity] |].
        intros q. split; [discriminate | intros (_ & _ & H); discriminate].
    + split; [split; [discriminate | intros H; contradiction] |].
      split; [split; [intros _; auto | reflexivity] |].
      intros q; split; [discriminate | intros (_ & H & _); contradiction].
  - split; [split; [intros _; exact Hk | reflexivity] |].
    split; [split; [discriminate | intros [H _]; contradiction] |].
    intros q; split; [discriminate | intros [H _]; contradiction].
Qed.

Example decrypt_full_padding_block :
  decrypt_segment identity_block (repeat x10 16) (repeat x00 16) 0 = Ok [].
Proof. reflexivity. Qed.

Example decrypt_short_key :
  decrypt_segment identity_block (repeat x10 16) (repeat x00 15) 0 = Err InvalidKeyLength.
Proof. reflexivity. Qed.

Example decrypt_partial_block :
  decrypt_segment identity_block (repeat x10 15) (repeat x00 16) 0 = Err DecryptionError.
Proof. reflexivity. Qed.

Example decrypt_empty :
  decrypt_segment identity_block [] (repeat x00 16) 0 = Err DecryptionError.
Proof. reflexivity. Qed.

(* ------------------------------------------------------------------ *)
(** ** Retry wrapper *)

Lemma attempt_state_S (try_dl : St -> result unit * St) st j :
  attempt_state try_dl st (S j) = attempt_state try_dl (snd (try_dl st)) j.
Proof.
  unfold attempt_state. revert st. induction j as [|j IH]; intros st; [reflexivity |].
  change (Nat.iter (S (S j)) (fun s => snd (try_dl s)) st)
    with (snd (try_dl (Nat.iter (S j) (fun s => snd (try_dl s)) st))).
  rewrite IH. reflexivity.
Qed.

Lemma retry_events_S rc m :
  retry_events rc (S m) = [Attempt; RetryLog (S rc); Sleep (1000 * S rc)] ++ retry_events (S rc) m.
Proof. reflexivity. Qed.

(** [m] failed attempts in a row, none of them the last allowed one: the
    loop logs and sleeps after each and goes on with [retry_count + m]. *)
Lemma retry_loop_fail (try_dl : St -> result unit * St) (retry index m : nat) :
  forall rc st fuel,
  rc + m <= retry -> m < fuel ->
  (forall j, j < m -> is_err (fst (try_dl (attempt_state try_dl st j))) = true) ->
  retry_loop try_dl retry index fuel rc st =
    let '(r, st', tr) :=
      retry_loop try_dl retry index (fuel - m) (rc + m) (attempt_state try_dl st m) in
    (r, st', retry_events rc m ++ tr).
Proof.
  induction m as [|m IH]; intros rc st fuel Hle Hfuel Hfail.
  - rewrite Nat.sub_0_r, Nat.add_0_r. change (attempt_state try_dl st 0) with st.
    cbn [retry_events seq map List.concat app].
    destruct (retry_loop try_dl retry index fuel rc st) as [[r st'] tr]. reflexivity.
  - destruct fuel as [|fuel]; [lia |].
    assert (H0 : is_err (fst (try_dl st)) = true) by exact (Hfail 0 ltac:(lia)).
    cbn [retry_loop].
    destruct (try_dl st) as [[u|e] st1] eqn:E; [discriminate H0 |].
    destruct (Nat.ltb_spec retry (S rc)) as [Hlt | _]; [lia |].
    rewrite (IH (S rc) st1 fuel) by
      (try lia; intros j Hj; specialize (Hfail (S j) ltac:(lia));
       rewrite attempt_state_S, E in Hfail; exact Hfail).
    rewrite attempt_state_S, E, retry_events_S.
    replace (rc + S m) with (S rc + m) by lia. cbn [Nat.sub snd].
    destruct (retry_loop try_dl retry index (fuel - m) (S rc + m) (attempt_state try_dl st1 m))
      as [[r st'] tr].
    reflexivity.
Qed.

Lemma retry_events_sleeps_logs m : forall rc,
  sleeps (retry_events rc m) = map (fun i => 1000 * i) (seq (S rc) m) /\
  retry_logs (retry_events rc m) = seq (S rc) m.
Proof.
  induction m as [|m IH]; intros rc; [split; reflexivity |].
  rewrite retry_events_S. destruct (IH (S rc)) as [H1 H2].
  cbn [sleeps retry_logs app]. rewrite H1, H2. split; reflexivity.
Qed.

Lemma sleeps_app tr1 tr2 : sleeps (tr1 ++ tr2) = sleeps tr1 ++ sleeps tr2.
Proof. induction tr1 as [|[] tr1 IH]; simpl; rewrite ?IH; reflexivity. Qed.

Lemma retry_logs_app tr1 tr2 : retry_logs (tr1 ++ tr2) = retry_logs tr1 ++ retry_logs tr2.
Proof. induction tr1 as [|[] tr1 IH]; simpl; rewrite ?IH; reflexivity. Qed.

(** ** Claim C4: when every attempt fails, [download_segment] makes
    [retry + 1] attempts, logs [retry] retries, sleeps [1000 * n] ms after
    the [n]-th failure for [n = 1 .. retry], and returns
    [FetchError index retry e] with [e] the error of the last attempt; when
    attempt [k] is the first to succeed ([1 <= k <= retry + 1], so every
    [k <= retry]), it logs [k - 1] retries with the same back-off and
    returns success. *)
Theorem C4_retry_policy (try_dl : St -> result unit * St) (retry index : nat) (st : St) :
  (forall errs : nat -> err,
     (forall j, j <= retry -> fst (try_dl (attempt_state try_dl st j)) = Err (errs j)) ->
     download_segment try_dl retry index st =
       (Err (FetchError index retry (errs retry)), attempt_state try_dl st (S retry),
        retry_events 0 retry ++ [Attempt]) /\
     sleeps (retry_events 0 retry ++ [Attempt]) = map (fun n => 1000 * n) (seq 1 retry) /\
     retry_logs (retry_events 0 retry ++ [Attempt]) = seq 1 retry) /\
  (forall k, 1 <= k <= S retry ->
     (forall j, j < k - 1 -> is_err (fst (try_dl (attempt_state try_dl st j))) = true) ->
     fst (try_dl (attempt_state try_dl st (k - 1))) = Ok tt ->
     download_segment try_dl retry index st =
       (Ok tt, incr_completed (attempt_state try_dl st k), retry_events 0 (k - 1) ++ [Attempt]) /\
     sleeps (retry_events 0 (k - 1) ++ [Attempt]) = map (fun n => 1000 * n) (seq 1 (k - 1)) /\
     retry_logs (retry_events 0 (k - 1) ++ [Attempt]) = seq 1 (k - 1)).
Proof.
  split.
  - intros errs Hall.
    rewrite sleeps_app, retry_logs_app, app_nil_r, app_nil_r.
    destruct (retry_events_sleeps_logs retry 0) as [Hs Hl]. rewrite Hs, Hl.
    split; [| split; reflexivity].
    unfold download_segment.
    rewrite (retry_loop_fail try_dl retry index retry 0 st (S retry)) by
      (try lia; intros j Hj; rewrite (Hall j ltac:(lia)); reflexivity).
    replace (S retry - retry) with 1 by lia. cbn [Nat.add].
    cbn [retry_loop]. pose proof (Hall retry (le_n _)) as Hr.
    destruct (try_dl (attempt_state try_dl st retry)) as [r st1] eqn:E.
    cbn [fst] in Hr. subst r.
    destruct (Nat.ltb_spec retry (S retry)) as [_ | Hge]; [| lia].
    change (attempt_state try_dl st (S retry))
      with (snd (try_dl (attempt_state try_dl st retry))).
    rewrite E. reflexivity.
  - intros k Hk Hfail Hok.
    rewrite sleeps_app, retry_logs_app, app_nil_r, app_nil_r.
    destruct (retry_events_sleeps_logs (k - 1) 0) as [Hs Hl]. rewrite Hs, Hl.
    split; [| split; reflexivity].
    unfold download_segment.
    rewrite (retry_loop_fail try_dl retry index (k - 1) 0 st (S retry)) by (try lia; exact Hfail).
    replace (S retry - (k - 1)) with (S (retry - (k - 1))) by lia. cbn [Nat.add].
    cbn [retry_loop].
    destruct (try_dl (attempt_state try_dl st (k - 1))) as [r st1] eqn:E.
    cbn [fst] in Hok. subst r.
    replace k with (S (k - 1)) at 2 by lia.
    change (attempt_state try_dl st (S (k - 1)))
      with (snd (try_dl (attempt_state try_dl st (k - 1)))).
    rewrite E. reflexivity.
Qed.

(* ------------------------------------------------------------------ *)
(** ** Fetcher: the resume path *)

(** ** Claim C1 (counterexample): a segment whose file [seg0.ts] already
    exists and passes the Validator is skipped without a request, but
    [download_segment] then counts it: the completed-segment counter goes
    from 0 to 1. *)
Lemma C1_skip_increments_completed :
  download_segment_full identity_block no_join no_server remove_ok 4 0 "seg0.ts" None resume_state0 =
    (Ok tt, mkSt {[ "seg0.ts" := [x47; x00; x00; x00] ]} 1 0 0 0, [Attempt]) /\
  completed_segments resume_state0 = 0.
Proof. split; reflexivity. Qed.

Lemma fetch_segment_effects aes join http index uri name key st :
  let '(r, st') := fetch_segment aes join http index uri name key st in
  remove_calls st' = remove_calls st /\
  (resolve_url join uri <> None -> net_calls st' = S (net_calls st)) /\
  (is_err r = true -> files st' = files st) /\
  (r = Ok tt -> exists url body d,
     resolve_url join uri = Some url /\ http (net_calls st) url = Some (true, Some body) /\
     files st' = <[name := d]> (files st) /\
     (key = None /\ d = body \/ exists k, key = Some k /\ decrypt_segment aes body k index = Ok d)).
Proof.
  unfold fetch_segment.
  destruct (resolve_url join uri) as [url|] eqn:Eu;
    [| split; [reflexivity | split; [intros []; reflexivity | split; [reflexivity | discriminate]]]].
  destruct (http (net_calls st) url) as [[[|] [body|]]|] eqn:Eh;
    try (split; [reflexivity | split; [reflexivity | split; [reflexivity | discriminate]]]).
  destruct key as [k|].
  - destruct (decrypt_segment aes body k index) as [d|e] eqn:Ed.
    + split; [reflexivity | split; [reflexivity | split; [discriminate |]]].
      intros _. exists url, body, d. split; [reflexivity | split; [exact Eh | split; [reflexivity |]]].
      right. exists k. split; [reflexivity | exact Ed].
    + split; [reflexivity | split; [reflexivity | split; [reflexivity | discriminate]]].
  - split; [reflexivity | split; [reflexivity | split; [discriminate |]]].
    intros _. exists url, body, body. split; [reflexivity | split; [exact Eh | split; [reflexivity |]]].
    left. split; reflexivity.
Qed.

(** ** Claim C1 (as amended): when the segment's file already exists and
    the Validator accepts it, [download_segment] returns success after one
    attempt that issues no request, leaves the file and the byte counter
    unchanged, and only increments the completed-segment counter.  When the
    Validator rejects it, the attempt calls [fs::remove_file] on it once (a
    failure is only logged) and fetches again, with a request whenever the
    URL resolves: on success the file holds the body of that response
    (decrypted when there is a key); on failure the file is deleted, or left
    unchanged when its deletion failed. *)
Theorem C1_resume_skip_or_refetch (aes : bytes -> bytes -> bytes)
    (join : string -> option string) (http : nat -> string -> response)
    (rm : nat -> string -> bool)
    (retry index : nat) (uri : string) (key : option bytes) (st : St) (data : bytes) :
  files st !! segment_filename uri index = Some data ->
  if is_valid_ts_file (Some data) then
    download_segment_full aes join http rm retry index uri key st =
      (Ok tt, incr_completed st, [Attempt]) /\
    files (incr_completed st) = files st /\
    downloaded_bytes (incr_completed st) = downloaded_bytes st /\
    net_calls (incr_completed st) = net_calls st /\
    completed_segments (incr_completed st) = S (completed_segments st)
  else
    let '(r, st') := try_download_segment aes join http rm index uri key st in
    remove_calls st' = S (remove_calls st) /\
    (resolve_url join uri <> None -> net_calls st' = S (net_calls st)) /\
    (r = Ok tt -> exists url body d,
       resolve_url join uri = Some url /\ http (net_calls st) url = Some (true, Some body) /\
       files st' = <[segment_filename uri index := d]> (files st) /\
       (key = None /\ d = body \/
        exists k, key = Some k /\ decrypt_segment aes body k index = Ok d)) /\
    (is_err r = true ->
       files st' = if rm (remove_calls st) (segment_filename uri index)
                   then delete (segment_filename uri index) (files st) else files st).
Proof.
  intros H.
  destruct (is_valid_ts_file (Some data)) eqn:V.
  - split; [| repeat split].
    unfold download_segment_full, download_segment. cbn [retry_loop].
    unfold try_download_segment. cbv zeta. rewrite H, V. reflexivity.
  - unfold try_download_segment. cbv zeta. rewrite H, V.
    set (name := segment_filename uri index).
    set (st2 := if rm (remove_calls st) name
                then set_files (delete name (files (incr_remove st))) (incr_remove st)
                else incr_remove st).
    assert (Hf2 : files st2 = if rm (remove_calls st) name then delete name (files st) else files st)
      by (unfold st2; destruct (rm (remove_calls st) name); reflexivity).
    assert (Hn2 : net_calls st2 = net_calls st)
      by (unfold st2; destruct (rm (remove_calls st) name); reflexivity).
    assert (Hr2 : remove_calls st2 = S (remove_calls st))
      by (unfold st2; destruct (rm (remove_calls st) name); reflexivity).
    pose proof (fetch_segment_effects aes join http index uri name key st2) as Hf.
    destruct (fetch_segment _ _ _ _ _ _ _ _) as [r st'].
    destruct Hf as (Hr & Hn & He & Hok).
    split; [congruence |]. split; [intros Hu; rewrite Hn by exact Hu; congruence |].
    split; [| intros Herr; rewrite He by exact Herr; exact Hf2].
    intros Ho. destruct (Hok Ho) as (url & body & d & Hu & Hb & Hfs & Hd).
    exists url, body, d. rewrite <- Hn2. split; [exact Hu | split; [exact Hb | split; [| exact Hd]]].
    rewrite Hfs, Hf2. destruct (rm (remove_calls st) name); [apply insert_delete_eq | reflexivity].
Qed.

Lemma C1_resume_skip_or_refetch_witness :
  files corrupt_state0 !! segment_filename "http://h/seg0.ts" 0 = Some [x00; x00; x00; x00] /\
  (if is_valid_ts_file (Some [x00; x00; x00; x00]) then
    download_segment_full identity_block no_join one_server remove_fails 4 0 "http://h/seg0.ts" None
      corrupt_state0 = (Ok tt, incr_completed corrupt_state0, [Attempt]) /\
    files (incr_completed corrupt_state0) = files corrupt_state0 /\
    downloaded_bytes (incr_completed corrupt_state0) = downloaded_bytes corrupt_state0 /\
    net_calls (incr_completed corrupt_state0) = net_calls corrupt_state0 /\
    completed_segments (incr_completed corrupt_state0) = S (completed_segments corrupt_state0)
  else
    let '(r, st') := try_download_segment identity_block no_join one_server remove_fails 0
                       "http://h/seg0.ts" None corrupt_state0 in
    remove_calls st' = S (remove_calls corrupt_state0) /\
    (resolve_url no_join "http://h/seg0.ts" <> None -> net_calls st' = S (net_calls corrupt_state0)) /\
    (r = Ok tt -> exists url body d,
       resolve_url no_join "http://h/seg0.ts" = Some url /\
       one_server (net_calls corrupt_state0) url = Some (true, Some body) /\
       files st' = <[segment_filename "http://h/seg0.ts" 0 := d]> (files corrupt_state0) /\
       ((None : option bytes) = None /\ d = body \/
        exists k, (None : option bytes) = Some k /\ decrypt_segment identity_block body k 0 = Ok d)) /\
    (is_err r = true ->
       files st' = if remove_fails (remove_calls corrupt_state0) (segment_filename "http://h/seg0.ts" 0)
                   then delete (segment_filename "http://h/seg0.ts" 0) (files corrupt_state0)
                   else files corrupt_state0)).
Proof.
  split; [reflexivity |].
  apply (C1_resume_skip_or_refetch identity_block no_join one_server remove_fails 4 0
           "http://h/seg0.ts" None corrupt_state0 [x00; x00; x00; x00]).
  reflexivity.
Defined.

Example retry_trace_all_fail :
  download_segment always_fail 2 7 (mkSt ∅ 0 0 0 0) =
    (Err (FetchError 7 2 TransportError), mkSt ∅ 0 0 3 0,
     [Attempt; RetryLog 1; Sleep 1000; Attempt; RetryLog 2; Sleep 2000; Attempt]).
Proof. reflexivity. Qed.

(** A corrupt file is replaced by the fetched body. *)
Example refetch_corrupt :
  download_segment_full identity_block no_join one_server remove_ok 4 0 "http://h/seg0.ts" None corrupt_state0 =
    (Ok tt, mkSt {[ "seg0.ts" := [x47; x01; x02; x03] ]} 1 4 1 1, [Attempt]).
Proof. reflexivity. Qed.

(* ------------------------------------------------------------------ *)
(** ** Assembler *)

Lemma merge_loop_concat (temp : string) (uris : list string) :
  forall (bs : list bytes) idx (fs : dir) acc,
  length bs = length uris ->
  fs !! temp = Some acc ->
  (forall i uri, uris !! i = Some uri ->
     segment_filename uri (idx + i) <> temp /\
     exists b, bs !! i = Some b /\ fs !! segment_filename uri (idx + i) = Some b) ->
  exists fs', merge_loop temp uris idx fs = (Ok tt, fs') /\
              fs' !! temp = Some (acc ++ List.concat bs).
Proof.
  induction uris as [|uri rest IH]; intros bs idx fs acc Hlen Htemp Hall.
  - destruct bs; [| discriminate]. exists fs. rewrite app_nil_r. split; [reflexivity | exact Htemp].
  - destruct bs as [|b bs]; [discriminate |]. simpl in Hlen.
    destruct (Hall 0 uri eq_refl) as [Hne (b0 & Hb0 & Hfs)].
    simpl in Hb0. injection Hb0 as <-. rewrite Nat.add_0_r in Hne, Hfs.
    cbn [merge_loop]. rewrite Hfs, Htemp. cbn [default].
    destruct (IH bs (S idx) (<[temp := acc ++ b]> fs) (acc ++ b)) as (fs' & Hm & Ht).
    + lia.
    + apply lookup_insert_eq.
    + intros i u Hu. destruct (Hall (S i) u Hu) as [Hne' (b' & Hb' & Hfs')].
      replace (S idx + i) with (idx + S i) by lia.
      split; [exact Hne' |]. exists b'. split; [exact Hb' |].
      rewrite lookup_insert_ne by (intros E; apply Hne'; symmetry; exact E). exact Hfs'.
    + exists fs'. split; [exact Hm |]. rewrite Ht, <- app_assoc. reflexivity.
Qed.

(** ** Claim C5 (counterexample): with output name ["out"] the temporary
    file is [out_temp.ts]; an entry whose URI is ["out_temp.ts"] has its
    persisted file truncated by [File::create] before it is read, so the
    intermediate stream is empty instead of the entry's bytes [47]. *)
Lemma C5_temp_name_collision :
  segment_filename "out_temp.ts" 0 = temp_ts_name "out" /\
  ({[ "out_temp.ts" := [x47] ]} : dir) !! segment_filename "out_temp.ts" 0 = Some [x47] /\
  merged_stream "out" ["out_temp.ts"] {[ "out_temp.ts" := [x47] ]} = Ok [].
Proof. repeat split; reflexivity. Qed.

(** ** Claim C5 (as amended): when every entry's persisted file is present
    and no entry's file name is the temporary file's name, the intermediate
    stream is the concatenation of the entries' bytes in the order of the
    entry list; the assembler has no other input, so the order in which
    the segments completed plays no part. *)
Theorem C5_merge_in_manifest_order (output_filename : string) (uris : list string)
    (fs : dir) (bs : list bytes) :
  length bs = length uris ->
  (forall i uri, uris !! i = Some uri ->
     segment_filename uri i <> temp_ts_name output_filename /\
     exists b, bs !! i = Some b /\ fs !! segment_filename uri i = Some b) ->
  merged_stream output_filename uris fs = Ok (List.concat bs).
Proof.
  intros Hlen Hall. unfold merged_stream.
  destruct (merge_loop_concat (temp_ts_name output_filename) uris bs 0
              (<[temp_ts_name output_filename := []]> fs) [] Hlen)
    as (fs' & Hm & Ht).
  - apply lookup_insert_eq.
  - intros i uri Hu. destruct (Hall i uri Hu) as [Hne (b & Hb & Hfs)].
    split; [exact Hne |]. exists b. split; [exact Hb |].
    rewrite lookup_insert_ne by (intros E; apply Hne; symmetry; exact E). exact Hfs.
  - rewrite Hm, Ht. reflexivity.
Qed.

Lemma C5_merge_in_manifest_order_witness :
  length [[x41]; [x42; x42]; [x43]] = length ["x/a.ts"; "x/b.ts"; "x/c.ts"] /\
  (forall i uri, ["x/a.ts"; "x/b.ts"; "x/c.ts"] !! i = Some uri ->
     segment_filename uri i <> temp_ts_name "out" /\
     exists b, [[x41]; [x42; x42]; [x43]] !! i = Some b /\ abc_dir !! segment_filename uri i = Some b) /\
  merged_stream "out" ["x/a.ts"; "x/b.ts"; "x/c.ts"] abc_dir = Ok (List.concat [[x41]; [x42; x42]; [x43]]).
Proof.
  assert (Hall : forall i uri, ["x/a.ts"; "x/b.ts"; "x/c.ts"] !! i = Some uri ->
     segment_filename uri i <> temp_ts_name "out" /\
     exists b, [[x41]; [x42; x42]; [x43]] !! i = Some b /\ abc_dir !! segment_filename uri i = Some b).
  { intros [|[|[|i]]] uri Hu; simpl in Hu; try discriminate; injection Hu as <-;
      (split; [discriminate | eexists; split; reflexivity]). }
  split; [reflexivity |]. split; [exact Hall |].
  apply (C5_merge_in_manifest_order "out" _ abc_dir [[x41]; [x42; x42]; [x43]]);
    [reflexivity | exact Hall].
Defined.

(** ** Claim C7 (counterexample): after a successful ffmpeg run, a failing
    [fs::remove_file] of the temporary file makes [merge_segments] return
    an error. *)
Lemma C7_temp_removal_failure_escalated :
  merge_segments (cleanup_env false true) "out" [] ∅ =
    (Err RemoveTempError, {[ "out_temp.ts" := [] ]}, []).
Proof. reflexivity. Qed.

(** ** Claim C7 (as amended): after the concatenation and a successful
    ffmpeg run, [merge_segments] removes the temporary file; if that fails
    it returns [RemoveTempError] and keeps the download directory.  Once the
    temporary file is gone it removes the whole download directory (every
    segment file with it) and returns success; a failure of that removal is
    only logged and it still returns success, with the temporary file gone
    and whatever is left of the directory unchanged. *)
Theorem C7_cleanup (env : merge_env) (output_filename : string) (uris : list string)
    (fs fs1 : dir) :
  merge_loop (temp_ts_name output_filename) uris 0
    (<[temp_ts_name output_filename := []]> fs) = (Ok tt, fs1) ->
  ffmpeg env (default [] (fs1 !! temp_ts_name output_filename)) = Some true ->
  (remove_temp_ok env = true -> remove_dir_ok env = true ->
     merge_segments env output_filename uris fs = (Ok tt, ∅, [LogRemovedDir; LogConverted])) /\
  (remove_temp_ok env = true -> remove_dir_ok env = false ->
     exists fs', merge_segments env output_filename uris fs =
       (Ok tt, fs', [LogRemoveDirFailed; LogConverted]) /\
     fs' !! temp_ts_name output_filename = None /\
     forall k d, fs' !! k = Some d -> fs1 !! k = Some d) /\
  (remove_temp_ok env = false ->
     merge_segments env output_filename uris fs = (Err RemoveTempError, fs1, [])).
Proof.
  intros Hm Hf. unfold merge_segments. cbv zeta. rewrite Hm, Hf.
  split; [| split].
  - intros Ht Hd. rewrite Ht, Hd. reflexivity.
  - intros Ht Hd. rewrite Ht, Hd. cbn [negb].
    eexists. split; [reflexivity | split].
    + destruct (filter _ _ !! temp_ts_name output_filename) eqn:E; [| reflexivity].
      apply map_lookup_filter_Some in E as [E _]. rewrite lookup_delete_eq in E. discriminate E.
    + intros k d E. apply map_lookup_filter_Some in E as [E _].
      apply lookup_delete_Some in E as [_ E]. exact E.
  - intros Ht. rewrite Ht. reflexivity.
Qed.

Lemma C7_cleanup_witness :
  merge_loop (temp_ts_name "out") ["x/a.ts"] 0 (<[temp_ts_name "out" := []]> abc_dir) =
    (Ok tt, <[temp_ts_name "out" := [x41]]> abc_dir) /\
  ffmpeg (cleanup_env true false) (default [] ((<[temp_ts_name "out" := [x41]]> abc_dir) !! temp_ts_name "out")) = Some true /\
  (remove_temp_ok (cleanup_env true false) = true -> remove_dir_ok (cleanup_env true false) = true ->
     merge_segments (cleanup_env true false) "out" ["x/a.ts"] abc_dir = (Ok tt, ∅, [LogRemovedDir; LogConverted])) /\
  (remove_temp_ok (cleanup_env true false) = true -> remove_dir_ok (cleanup_env true false) = false ->
     exists fs', merge_segments (cleanup_env true false) "out" ["x/a.ts"] abc_dir =
       (Ok tt, fs', [LogRemoveDirFailed; LogConverted]) /\
     fs' !! temp_ts_name "out" = None /\
     forall k d, fs' !! k = Some d -> (<[temp_ts_name "out" := [x41]]> abc_dir) !! k = Some d) /\
  (remove_temp_ok (cleanup_env true false) = false ->
     merge_segments (cleanup_env true false) "out" ["x/a.ts"] abc_dir =
       (Err RemoveTempError, <[temp_ts_name "out" := [x41]]> abc_dir, [])).
Proof.
  assert (Hm : merge_loop (temp_ts_name "out") ["x/a.ts"] 0 (<[temp_ts_name "out" := []]> abc_dir) =
    (Ok tt, <[temp_ts_name "out" := [x41]]> abc_dir)) by reflexivity.
  split; [exact Hm |]. split; [reflexivity |].
  apply (C7_cleanup (cleanup_env true false) "out" ["x/a.ts"] abc_dir _ Hm). reflexivity.
Defined.

(* ------------------------------------------------------------------ *)
(** ** Batch driver *)

Lemma process_loop_inv (W : Type) (run : DownloadTask -> W -> result unit * W)
    (ts : list DownloadTask) :
  forall w succ failed attempts,
  succ = ok_names attempts -> map fst failed = err_names attempts ->
  let '(succ', failed', attempts', _) := process_loop W run ts w succ failed attempts in
  succ' = ok_names attempts' /\ map fst failed' = err_names attempts' /\
  map fst attempts' = map fst attempts ++ ts.
Proof.
  induction ts as [|t rest IH]; intros w succ failed attempts Hs Hf.
  - cbn [process_loop]. rewrite app_nil_r. auto.
  - cbn [process_loop]. destruct (run t w) as [[u|e] w'].
    + specialize (IH w' (succ ++ [task_name t]) failed (attempts ++ [(t, Ok tt)])).
      destruct (process_loop W run rest w' _ _ _) as [[[s' f'] a'] w''].
      destruct IH as (H1 & H2 & H3).
      * unfold ok_names. rewrite List.filter_app, map_app, Hs. reflexivity.
      * unfold err_names. rewrite List.filter_app, map_app, Hf. simpl. rewrite app_nil_r. reflexivity.
      * split; [exact H1 | split; [exact H2 |]]. rewrite H3, map_app, <- app_assoc. reflexivity.
    + specialize (IH w' succ (failed ++ [(task_name t, e)]) (attempts ++ [(t, Err e)])).
      destruct (process_loop W run rest w' _ _ _) as [[[s' f'] a'] w''].
      destruct IH as (H1 & H2 & H3).
      * unfold ok_names. rewrite List.filter_app, map_app, Hs. simpl. rewrite app_nil_r. reflexivity.
      * rewrite map_app, Hf. unfold err_names. rewrite List.filter_app, map_app. reflexivity.
      * split; [exact H1 | split; [exact H2 |]]. rewrite H3, map_app, <- app_assoc. reflexivity.
Qed.

Lemma filter_length_full {A} (p : A -> bool) (l : list A) :
  length (List.filter p l) = length l <-> Forall (fun a => p a = true) l.
Proof.
  induction l as [|a l IH]; simpl.
  - split; auto.
  - pose proof (List.filter_length_le p l) as Hle.
    destruct (p a) eqn:E; simpl.
    + rewrite Forall_cons. split; [intros H; split; [exact E | apply IH; lia] | intros [_ H]; f_equal; apply IH, H].
    + split; [lia | intros H; inversion H; congruence].
Qed.

Lemma not_forall_exists_false {A} (p : A -> bool) (l : list A) :
  ~ Forall (fun a => p a = true) l -> Exists (fun a => p a = false) l.
Proof.
  induction l as [|a l IH]; intros H.
  - exfalso. apply H. constructor.
  - destruct (p a) eqn:E.
    + right. apply IH. intros HF. apply H. constructor; assumption.
    + left. exact E.
Qed.

(** ** Claim C8: [process_download_tasks] calls [process_download_task] on
    every task, in order, whatever the earlier ones returned; each outcome
    is recorded (the successful names and the failed names are exactly the
    tasks whose call succeeded or failed); and the batch returns an error
    exactly when every call failed (it succeeds exactly when one call
    succeeded). *)
Theorem C8_batch_isolation (W : Type) (run : DownloadTask -> W -> result unit * W)
    (ts : list DownloadTask) (w : W) :
  let '(successful_tasks, failed_tasks, attempts, _) := process_loop W run ts w [] [] [] in
  map fst attempts = ts /\
  successful_tasks = ok_names attempts /\
  map fst failed_tasks = err_names attempts /\
  snd (process_download_tasks W run ts w) = attempts /\
  (fst (process_download_tasks W run ts w) = Err AllTasksFailed <->
     Forall (fun a => is_err (snd a) = true) attempts) /\
  (fst (process_download_tasks W run ts w) = Ok tt <->
     Exists (fun a => is_err (snd a) = false) attempts).
Proof.
  pose proof (process_loop_inv W run ts w [] [] [] eq_refl eq_refl) as Hinv.
  unfold process_download_tasks.
  destruct (process_loop W run ts w [] [] []) as [[[s f] a] w'].
  destruct Hinv as (Hs & Hf & Ha). simpl in Ha.
  assert (Hlen : length f = length (List.filter (fun x => is_err (snd x)) a)).
  { rewrite <- (length_map fst f), Hf. unfold err_names. apply length_map. }
  assert (Hts : length ts = length a) by (rewrite <- Ha; apply length_map).
  split; [exact Ha | split; [exact Hs | split; [exact Hf |]]].
  rewrite Hlen, Hts.
  split; [destruct (_ =? _); reflexivity |].
  destruct (Nat.eqb_spec (length (List.filter (fun x => is_err (snd x)) a)) (length a)) as [E | E];
    cbn [fst].
  - apply (filter_length_full (fun x => is_err (snd x))) in E.
    split; [split; [intros _; exact E | intros _; reflexivity] |].
    split; [discriminate |]. intros Hex. apply Exists_exists in Hex as (x & Hx & Hx').
    rewrite Forall_forall in E. specialize (E x Hx). congruence.
  - assert (HnF : ~ Forall (fun x => is_err (snd x) = true) a).
    { intros H. apply (filter_length_full (fun x => is_err (snd x))) in H. contradiction. }
    split; [split; [discriminate | intros H; contradiction] |].
    split; [intros _; exact (not_forall_exists_false _ a HnF) | intros _; reflexivity].
Qed.

(** ** Claim C10: for the empty task list [process_download_tasks] returns
    the "all tasks failed" error: [failed_tasks.len() == tasks.len()] holds
    with both lengths 0. *)
Theorem C10_empty_batch_fails (W : Type) (run : DownloadTask -> W -> result unit * W) (w : W) :
  process_download_tasks W run [] w = (Err AllTasksFailed, []).
Proof. reflexivity. Qed.

(* ------------------------------------------------------------------ *)
(** ** Scheduler *)

Lemma running_count_insert (ts : list task_state) :
  forall i x y, ts !! i = Some y ->
  length (List.filter is_running (<[i := x]> ts)) + (if is_running y then 1 else 0) =
  length (List.filter is_running ts) + (if is_running x then 1 else 0).
Proof.
  induction ts as [|t ts IH]; intros i x y Hi; [discriminate |].
  destruct i as [|i]; simpl in Hi |- *.
  - injection Hi as ->. destruct (is_running x), (is_running y); simpl; lia.
  - specialize (IH i x y Hi). destruct (is_running t); simpl; lia.
Qed.

Lemma sched_step_inv (c n : nat) (s s' : sched) :
  sched_step s s' ->
  running_count s + available_permits s = c -> length (tasks s) = n ->
  running_count s' + available_permits s' = c /\ length (tasks s') = n.
Proof.
  intros Hstep. destruct Hstep as [ts p i Hi Hp | ts p i Hi];
    unfold running_count; cbn [tasks available_permits]; intros Hc Hn.
  - pose proof (running_count_insert ts i Running Waiting Hi) as H. simpl in H.
    split; [lia | rewrite length_insert; exact Hn].
  - pose proof (running_count_insert ts i Done Running Hi) as H. simpl in H.
    split; [lia | rewrite length_insert; exact Hn].
Qed.

Lemma running_count_init n c : running_count (sched_init n c) = 0.
Proof. unfold running_count, sched_init. simpl. induction n as [|n IH]; simpl; auto. Qed.

(** ** Claim C9: in every interleaving of the [n] tasks [download] spawns
    (one per segment) over [Semaphore::new(concurrent)], at most
    [concurrent] tasks run [download_segment] at once: the running tasks
    and the free permits always add up to [concurrent]; and a task only
    starts running when fewer than [concurrent] tasks are running. *)
Theorem C9_concurrency_bound (n concurrent : nat) (s : sched) :
  rtc sched_step (sched_init n concurrent) s ->
  running_count s <= concurrent /\
  running_count s + available_permits s = concurrent /\
  length (tasks s) = n /\
  (forall s', sched_step s s' -> running_count s < running_count s' ->
     running_count s < concurrent).
Proof.
  intros Hr.
  assert (Hinv : forall a b, rtc sched_step a b ->
            running_count a + available_permits a = concurrent -> length (tasks a) = n ->
            running_count b + available_permits b = concurrent /\ length (tasks b) = n).
  { intros a b Hab. induction Hab as [a | a b d Hs Hbd IH]; intros Hc Hn; [auto |].
    destruct (sched_step_inv concurrent n a b Hs Hc Hn) as [Hc' Hn']. auto. }
  destruct (Hinv _ _ Hr) as [Hc Hn].
  - rewrite running_count_init. reflexivity.
  - apply repeat_length.
  - split; [lia | split; [exact Hc | split; [exact Hn |]]].
    intros s' Hstep Hlt. destruct Hstep as [ts p i Hi Hp | ts p i Hi].
    + cbn [available_permits] in Hc. lia.
    + unfold running_count in Hlt. cbn [tasks] in Hlt.
      pose proof (running_count_insert ts i Done Running Hi) as H. simpl in H. lia.
Qed.

Lemma C9_concurrency_bound_witness :
  rtc sched_step (sched_init 3 2) (mkSched [Running; Running; Waiting] 0) /\
  running_count (mkSched [Running; Running; Waiting] 0) <= 2 /\
  running_count (mkSched [Running; Running; Waiting] 0) + available_permits (mkSched [Running; Running; Waiting] 0) = 2 /\
  length (tasks (mkSched [Running; Running; Waiting] 0)) = 3 /\
  (forall s', sched_step (mkSched [Running; Running; Waiting] 0) s' ->
     running_count (mkSched [Running; Running; Waiting] 0) < running_count s' ->
     running_count (mkSched [Running; Running; Waiting] 0) < 2).
Proof.
  assert (Hr : rtc sched_step (sched_init 3 2) (mkSched [Running; Running; Waiting] 0)).
  { apply rtc_l with (mkSched [Running; Waiting; Waiting] 1).
    { apply (step_acquire [Waiting; Waiting; Waiting] 2 0); [reflexivity | lia]. }
    apply rtc_l with (mkSched [Running; Running; Waiting] 0).
    { apply (step_acquire [Running; Waiting; Waiting] 1 1); [reflexivity | lia]. }
    apply rtc_refl. }
  split; [exact Hr |]. exact (C9_concurrency_bound 3 2 _ Hr).
Defined.

(* ================================================================== *)
(** * Further properties of the code *)

(* ------------------------------------------------------------------ *)
(** ** Scheduler: deadlock with no permit, completion otherwise *)

Lemma count_insert (f : task_state -> bool) (ts : list task_state) :
  forall i x y, ts !! i = Some y ->
  length (List.filter f (<[i := x]> ts)) + (if f y then 1 else 0) =
  length (List.filter f ts) + (if f x then 1 else 0).
Proof.
  induction ts as [|t ts IH]; intros i x y Hi; [discriminate |].
  destruct i as [|i]; simpl in Hi |- *.
  - injection Hi as ->. destruct (f x), (f y); simpl; lia.
  - specialize (IH i x y Hi). destruct (f t); simpl; lia.
Qed.

Lemma filter_zero_not_in (f : task_state -> bool) (ts : list task_state) x :
  f x = true -> length (List.filter f ts) = 0 -> ~ In x ts.
Proof.
  induction ts as [|t ts IH]; simpl; [tauto |].
  intros Hx Hl [<- | Hin]; [rewrite Hx in Hl; discriminate |].
  destruct (f t); [discriminate | exact (IH Hx Hl Hin)].
Qed.

Lemma filter_pos_in (f : task_state -> bool) (ts : list task_state) :
  0 < length (List.filter f ts) -> exists i x, ts !! i = Some x /\ f x = true.
Proof.
  induction ts as [|t ts IH]; simpl; [lia |].
  destruct (f t) eqn:E.
  - intros _. exists 0, t. split; [reflexivity | exact E].
  - intros H. destruct (IH H) as (i & x & Hi & Hx). exists (S i), x. split; [exact Hi | exact Hx].
Qed.

Lemma all_done_repeat (ts : list task_state) :
  length (List.filter is_running ts) = 0 -> length (List.filter is_waiting ts) = 0 ->
  ts = repeat Done (length ts).
Proof.
  induction ts as [|t ts IH]; simpl; [reflexivity |].
  destruct t; simpl; try discriminate. intros H1 H2. f_equal. auto.
Qed.

Lemma sched_complete_aux (c : nat) (Hc : 1 <= c) (m : nat) :
  forall ts p,
  2 * length (List.filter is_waiting ts) + length (List.filter is_running ts) <= m ->
  length (List.filter is_running ts) + p = c ->
  rtc sched_step (mkSched ts p) (mkSched (repeat Done (length ts)) c).
Proof.
  induction m as [|m IH]; intros ts p Hm Hp.
  - assert (Hr : length (List.filter is_running ts) = 0) by lia.
    assert (Hw : length (List.filter is_waiting ts) = 0) by lia.
    rewrite <- (all_done_repeat ts Hr Hw). replace p with c by lia. apply rtc_refl.
  - destruct (length (List.filter is_running ts)) as [|r] eqn:Er.
    + destruct (length (List.filter is_waiting ts)) as [|w] eqn:Ew.
      * rewrite <- (all_done_repeat ts Er Ew). replace p with c by lia. apply rtc_refl.
      * destruct (filter_pos_in is_waiting ts ltac:(lia)) as (i & x & Hi & Hx).
        destruct x; try discriminate.
        pose proof (count_insert is_running ts i Running Waiting Hi) as H1.
        pose proof (count_insert is_waiting ts i Running Waiting Hi) as H2.
        simpl in H1, H2.
        eapply rtc_l; [apply step_acquire; [exact Hi | lia] |].
        rewrite <- (length_insert ts i Running).
        apply IH; lia.
    + destruct (filter_pos_in is_running ts ltac:(lia)) as (i & x & Hi & Hx).
      destruct x; try discriminate.
      pose proof (count_insert is_running ts i Done Running Hi) as H1.
      pose proof (count_insert is_waiting ts i Done Running Hi) as H2.
      simpl in H1, H2.
      eapply rtc_l; [apply step_finish; exact Hi |].
      rewrite <- (length_insert ts i Done).
      apply IH; lia.
Qed.

Lemma sched_reachable_inv (n c : nat) (s : sched) :
  rtc sched_step (sched_init n c) s ->
  running_count s + available_permits s = c /\ length (tasks s) = n.
Proof.
  intros Hr.
  assert (Hinv : forall a b, rtc sched_step a b ->
            running_count a + available_permits a = c -> length (tasks a) = n ->
            running_count b + available_permits b = c /\ length (tasks b) = n).
  { intros a b Hab. induction Hab as [a | a b d Hs Hbd IH]; intros Hc Hn; [auto |].
    destruct (sched_step_inv c n a b Hs Hc Hn) as [Hc' Hn']. auto. }
  apply (Hinv _ _ Hr); [rewrite running_count_init; reflexivity | apply repeat_length].
Qed.

Lemma repeat_lookup_some (x y : task_state) (n i : nat) :
  repeat x n !! i = Some y -> y = x.
Proof.
  revert i. induction n as [|n IH]; intros [|i]; simpl; try discriminate.
  - congruence.
  - apply IH.
Qed.

(** With [Semaphore::new(0)] no spawned task ever gets a permit: every
    interleaving stays in the initial state, so [download] never gets past
    [join_all] when there is at least one segment. *)
Theorem sched_zero_permits_deadlock (n : nat) (s : sched) :
  rtc sched_step (sched_init n 0) s -> s = sched_init n 0.
Proof.
  intros Hr. inversion Hr as [| a b d Hs Hbd]; [reflexivity |]. subst.
  exfalso. inversion Hs as [ts p i Hi Hp | ts p i Hi]; subst.
  - lia.
  - unfold sched_init in *. simplify_eq.
    apply repeat_lookup_some in Hi. discriminate.
Qed.

Lemma sched_zero_permits_deadlock_witness :
  rtc sched_step (sched_init 2 0) (sched_init 2 0) /\ sched_init 2 0 = sched_init 2 0.
Proof.
  split; [apply rtc_refl |]. apply (sched_zero_permits_deadlock 2 (sched_init 2 0)). apply rtc_refl.
Defined.

(** With at least one permit no interleaving gets stuck: from every state
    the tasks can reach, all of them can still finish, with every permit
    back in the semaphore. *)
Theorem sched_all_tasks_can_finish (n concurrent : nat) (s : sched) :
  1 <= concurrent ->
  rtc sched_step (sched_init n concurrent) s ->
  rtc sched_step s (mkSched (repeat Done n) concurrent).
Proof.
  intros Hc Hr. destruct (sched_reachable_inv n concurrent s Hr) as [Hinv Hlen].
  destruct s as [ts p]. cbn [tasks available_permits] in *. unfold running_count in Hinv.
  cbn [tasks] in Hinv. rewrite <- Hlen.
  apply (sched_complete_aux concurrent Hc _ ts p (le_n _) Hinv).
Qed.

Lemma sched_all_tasks_can_finish_witness :
  1 <= 2 /\ rtc sched_step (sched_init 3 2) (sched_init 3 2) /\
  rtc sched_step (sched_init 3 2) (mkSched (repeat Done 3) 2).
Proof.
  split; [lia |]. split; [apply rtc_refl |].
  apply (sched_all_tasks_can_finish 3 2 (sched_init 3 2)); [lia | apply rtc_refl].
Defined.

(* ------------------------------------------------------------------ *)
(** ** Fetcher: the [DownloadStats] counters, and a key of the wrong length *)

Lemma fetch_segment_counters aes join http index uri name key st :
  let '(r, st') := fetch_segment aes join http index uri name key st in
  completed_segments st' = completed_segments st /\
  downloaded_bytes st <= downloaded_bytes st'.
Proof.
  unfold fetch_segment.
  destruct (resolve_url join uri) as [url|]; [| simpl; lia].
  destruct (http (net_calls st) url) as [[[|] [body|]]|]; simpl; try lia.
  destruct key as [k|]; simpl; [| lia].
  destruct (decrypt_segment aes body k index); simpl; lia.
Qed.

Lemma try_download_segment_counters aes join http rm index uri key st :
  let '(r, st') := try_download_segment aes join http rm index uri key st in
  completed_segments st' = completed_segments st /\
  downloaded_bytes st <= downloaded_bytes st'.
Proof.
  unfold try_download_segment. cbv zeta.
  destruct (files st !! segment_filename uri index) as [d|].
  - destruct (is_valid_ts_file (Some d)); [split; reflexivity |].
    match goal with
    | |- context [fetch_segment ?a ?j ?h ?i ?u ?n ?k ?s] =>
        pose proof (fetch_segment_counters a j h i u n k s) as H;
        destruct (fetch_segment a j h i u n k s)
    end.
    destruct (rm (remove_calls st) (segment_filename uri index)); exact H.
  - apply fetch_segment_counters.
Qed.

Lemma retry_loop_counters (try_dl : St -> result unit * St) (retry index : nat) :
  (forall s, completed_segments (snd (try_dl s)) = completed_segments s /\
             downloaded_bytes s <= downloaded_bytes (snd (try_dl s))) ->
  forall fuel rc st,
  let '(r, st', _) := retry_loop try_dl retry index fuel rc st in
  completed_segments st' = completed_segments st + (if is_err r then 0 else 1) /\
  downloaded_bytes st <= downloaded_bytes st'.
Proof.
  intros Hdl fuel. induction fuel as [|fuel IH]; intros rc st; simpl; [lia |].
  specialize (Hdl st). destruct (try_dl st) as [[u|e] st1]; simpl in Hdl |- *.
  - lia.
  - destruct (retry <? S rc); simpl; [lia |].
    specialize (IH (S rc) st1).
    destruct (retry_loop try_dl retry index fuel (S rc) st1) as [[r st'] tr]. lia.
Qed.

(** [download_segment] increments [completed_segments] exactly once when it
    succeeds and never when it fails, whatever the attempts did in between;
    [downloaded_bytes] never decreases. *)
Theorem download_segment_stats aes join http rm retry index uri key st :
  let '(r, st', _) := download_segment_full aes join http rm retry index uri key st in
  completed_segments st' = completed_segments st + (if is_err r then 0 else 1) /\
  downloaded_bytes st <= downloaded_bytes st'.
Proof.
  unfold download_segment_full, download_segment.
  apply retry_loop_counters. intros s.
  pose proof (try_download_segment_counters aes join http rm index uri key s) as H.
  destruct (try_download_segment aes join http rm index uri key s) as [r s']. exact H.
Qed.

Lemma fetch_wrong_key aes join http index uri name k st :
  length k <> 16 ->
  let '(r, st') := fetch_segment aes join http index uri name (Some k) st in
  is_err r = true /\ files st' = files st /\
  forall url body, resolve_url join uri = Some url ->
    http (net_calls st) url = Some (true, Some body) ->
    r = Err InvalidKeyLength /\ downloaded_bytes st' = downloaded_bytes st + length body.
Proof.
  intros Hk. unfold fetch_segment.
  assert (Hd : forall body, decrypt_segment aes body k index = Err InvalidKeyLength).
  { intros body. unfold decrypt_segment.
    destruct (Nat.eqb_spec (length k) 16); [contradiction | reflexivity]. }
  destruct (resolve_url join uri) as [url|].
  - destruct (http (net_calls st) url) as [[[|] [body|]]|] eqn:Eh;
      try (split; [reflexivity | split; [reflexivity |]];
           intros url' body' Hu Hb; injection Hu as <-; congruence).
    rewrite Hd. split; [reflexivity | split; [reflexivity |]].
    intros url' body' Hu Hb. injection Hu as <-. rewrite Eh in Hb. injection Hb as <-.
    split; reflexivity.
  - split; [reflexivity | split; [reflexivity |]]. intros url' body' Hu. discriminate.
Qed.

Lemma try_download_wrong_key aes join http rm index uri k st :
  length k <> 16 ->
  (forall d, files st !! segment_filename uri index = Some d -> is_valid_ts_file (Some d) = false) ->
  let '(r, st') := try_download_segment aes join http rm index uri (Some k) st in
  is_err r = true /\
  (files st' !! segment_filename uri index = None \/
   files st' !! segment_filename uri index = files st !! segment_filename uri index).
Proof.
  intros Hk Hv. unfold try_download_segment. cbv zeta.
  destruct (files st !! segment_filename uri index) as [d|] eqn:E.
  - rewrite (Hv d eq_refl).
    destruct (rm (remove_calls st) (segment_filename uri index)).
    + pose proof (fetch_wrong_key aes join http index uri (segment_filename uri index) k
                    (set_files (delete (segment_filename uri index) (files (incr_remove st)))
                       (incr_remove st)) Hk) as H.
      destruct (fetch_segment _ _ _ _ _ _ _ _) as [r st']. destruct H as (Hr & Hf & _).
      split; [exact Hr |]. left. rewrite Hf. apply lookup_delete_eq.
    + pose proof (fetch_wrong_key aes join http index uri (segment_filename uri index) k
                    (incr_remove st) Hk) as H.
      destruct (fetch_segment _ _ _ _ _ _ _ _) as [r st']. destruct H as (Hr & Hf & _).
      split; [exact Hr |]. right. rewrite Hf. exact E.
  - pose proof (fetch_wrong_key aes join http index uri (segment_filename uri index) k st Hk) as H.
    destruct (fetch_segment _ _ _ _ _ _ _ _) as [r st']. destruct H as (Hr & Hf & _).
    split; [exact Hr | left; rewrite Hf; exact E].
Qed.

(** A key that [extract_encryption_key] returns is not checked for length;
    when it is not 16 bytes long, each attempt of [download_segment] that
    is not skipped fails (with [InvalidKeyLength] once a body arrives) and
    writes no file, so the segment fails after all [retry + 1] attempts and
    their back-off; its file is deleted or, when every [fs::remove_file]
    failed, left as it was; no segment is counted as completed. *)
Theorem download_segment_wrong_key_length aes join http rm retry index uri k st :
  length k <> 16 ->
  (forall d, files st !! segment_filename uri index = Some d -> is_valid_ts_file (Some d) = false) ->
  let '(r, st', tr) := download_segment_full aes join http rm retry index uri (Some k) st in
  (exists e, r = Err (FetchError index retry e)) /\
  (files st' !! segment_filename uri index = None \/
   files st' !! segment_filename uri index = files st !! segment_filename uri index) /\
  completed_segments st' = completed_segments st /\
  tr = retry_events 0 retry ++ [Attempt].
Proof.
  intros Hk Hv.
  set (try_dl := try_download_segment aes join http rm index uri (Some k)).
  set (name := segment_filename uri index) in *.
  assert (Hstep : forall s, (forall d, files s !! name = Some d -> is_valid_ts_file (Some d) = false) ->
            is_err (fst (try_dl s)) = true /\
            (files (snd (try_dl s)) !! name = None \/ files (snd (try_dl s)) !! name = files s !! name) /\
            completed_segments (snd (try_dl s)) = completed_segments s).
  { intros s Hs. pose proof (try_download_wrong_key aes join http rm index uri k s Hk Hs) as H.
    pose proof (try_download_segment_counters aes join http rm index uri (Some k) s) as Hc.
    unfold try_dl. destruct (try_download_segment _ _ _ _ _ _ _ _) as [r s']. simpl.
    destruct H as [H1 H2], Hc as [Hc _]. auto. }
  assert (Hinv : forall j, (files (attempt_state try_dl st j) !! name = None \/
                            files (attempt_state try_dl st j) !! name = files st !! name) /\
                           completed_segments (attempt_state try_dl st j) = completed_segments st).
  { induction j as [|j [IH1 IH2]]; [split; [right |]; reflexivity |].
    change (attempt_state try_dl st (S j)) with (snd (try_dl (attempt_state try_dl st j))).
    assert (Hv' : forall d, files (attempt_state try_dl st j) !! name = Some d ->
                            is_valid_ts_file (Some d) = false).
    { intros d Hd. destruct IH1 as [IH1 | IH1]; rewrite IH1 in Hd; [discriminate | exact (Hv d Hd)]. }
    destruct (Hstep _ Hv') as (_ & Hf & Hc). split; [| congruence].
    destruct Hf as [Hf | Hf]; [left; exact Hf | rewrite Hf; exact IH1]. }
  assert (Hvalid : forall j d, files (attempt_state try_dl st j) !! name = Some d ->
                               is_valid_ts_file (Some d) = false).
  { intros j d Hd. destruct (proj1 (Hinv j)) as [E | E]; rewrite E in Hd;
      [discriminate | exact (Hv d Hd)]. }
  unfold download_segment_full, download_segment. fold try_dl.
  rewrite (retry_loop_fail try_dl retry index retry 0 st (S retry)) by
    (try lia; intros j _; exact (proj1 (Hstep _ (Hvalid j)))).
  replace (S retry - retry) with 1 by lia. rewrite Nat.add_0_l.
  destruct (Hinv retry) as [Hf0 Hc'].
  destruct (Hstep _ (Hvalid retry)) as (He & Hf & Hc).
  cbn [retry_loop].
  destruct (try_dl (attempt_state try_dl st retry)) as [[u|e] s'] eqn:E; [discriminate He |].
  destruct (Nat.ltb_spec retry (S retry)) as [_ | Hlt]; [| lia].
  simpl in Hf, Hc |- *.
  split; [exists e; reflexivity |].
  split; [destruct Hf as [Hf | Hf]; [left; exact Hf | rewrite Hf; exact Hf0] |].
  split; [congruence | reflexivity].
Qed.

Lemma download_segment_wrong_key_length_witness :
  length [x00] <> 16 /\
  (forall d, files corrupt_state0 !! segment_filename "http://h/seg0.ts" 0 = Some d ->
             is_valid_ts_file (Some d) = false) /\
  let '(r, st', tr) := download_segment_full identity_block no_join one_server remove_fails 2 0
                          "http://h/seg0.ts" (Some [x00]) corrupt_state0 in
  (exists e, r = Err (FetchError 0 2 e)) /\
  (files st' !! segment_filename "http://h/seg0.ts" 0 = None \/
   files st' !! segment_filename "http://h/seg0.ts" 0 =
     files corrupt_state0 !! segment_filename "http://h/seg0.ts" 0) /\
  completed_segments st' = completed_segments corrupt_state0 /\
  tr = retry_events 0 2 ++ [Attempt].
Proof.
  assert (Hv : forall d, files corrupt_state0 !! segment_filename "http://h/seg0.ts" 0 = Some d ->
                 is_valid_ts_file (Some d) = false).
  { intros d Hd. vm_compute in Hd. injection Hd as <-. reflexivity. }
  split; [simpl; lia |]. split; [exact Hv |].
  apply download_segment_wrong_key_length; [simpl; lia | exact Hv].
Defined.

(* ------------------------------------------------------------------ *)
(** ** Segment file names stay inside the download directory *)

Lemma has_char_app c s1 s2 : has_char c (s1 ++ s2) = has_char c s1 || has_char c s2.
Proof. induction s1 as [|c' s1 IH]; simpl; [reflexivity | rewrite IH, orb_assoc; reflexivity]. Qed.

Lemma split_slash_no_slash s : Forall (fun w => has_char "/" w = false) (split_slash s).
Proof.
  induction s as [|c s IH]; simpl; [repeat constructor |].
  destruct (Ascii.eqb c "/") eqn:Ec; [constructor; [reflexivity | exact IH] |].
  destruct (split_slash s) as [|w ws].
  - repeat constructor. simpl. rewrite Ec. reflexivity.
  - inversion IH as [| ? ? Hw Hws]; subst.
    constructor; [simpl; rewrite Ec; exact Hw | exact Hws].
Qed.

Lemma path_file_name_plain uri c :
  path_file_name uri = Some c ->
  c <> "" /\ c <> "." /\ c <> ".." /\ has_char "/" c = false.
Proof.
  unfold path_file_name.
  destruct (last _) as [c'|] eqn:El; [| discriminate].
  destruct (String.eqb_spec c' "..") as [_ | Hdd]; [discriminate |].
  intros Hc. injection Hc as <-.
  apply last_Some_elem_of, list_elem_of_In in El.
  apply filter_In in El as [Hin Hf].
  apply andb_true_iff in Hf as [H1 H2].
  destruct (String.eqb_spec c' "") as [|H1']; [discriminate |].
  destruct (String.eqb_spec c' ".") as [|H2']; [discriminate |].
  repeat split; try assumption.
  pose proof (split_slash_no_slash uri) as Hs. rewrite Forall_forall in Hs. apply Hs, list_elem_of_In, Hin.
Qed.

Lemma digit_char_not_slash d : d < 10 -> Ascii.eqb (digit_char d) "/" = false.
Proof. intros Hd. do 10 (destruct d as [|d]; [reflexivity |]). lia. Qed.

Lemma decimal_aux_no_slash fuel : forall n acc,
  has_char "/" acc = false -> has_char "/" (decimal_aux fuel n acc) = false.
Proof.
  induction fuel as [|fuel IH]; intros n acc Hacc; cbn [decimal_aux]; [exact Hacc |].
  assert (Hd : has_char "/" (String (digit_char (n mod 10)) acc) = false).
  { cbn [has_char]. rewrite digit_char_not_slash by (apply Nat.mod_upper_bound; lia). exact Hacc. }
  destruct (n <? 10); [exact Hd | apply IH; exact Hd].
Qed.

Lemma zeros_no_slash k : has_char "/" (String.concat "" (repeat "0" k)) = false.
Proof.
  induction k as [|k IH]; [reflexivity |].
  destruct k as [|k]; [reflexivity |].
  change (String.concat "" (repeat "0" (S (S k))))
    with ("0" ++ "" ++ String.concat "" (repeat "0" (S k)))%string.
  rewrite has_char_app. exact IH.
Qed.

Lemma pad6_no_slash n : has_char "/" (pad6 n) = false.
Proof.
  unfold pad6. rewrite has_char_app, zeros_no_slash.
  apply decimal_aux_no_slash. reflexivity.
Qed.

(** The name [try_download_segment] writes and [merge_segments] reads for a
    segment, [download_dir.join(name)], is a single plain path component
    whatever the manifest URI: never empty, never ["."] or [".."], and
    without a ['/'], so it names a file directly inside the download
    directory. *)
Theorem segment_filename_plain uri index :
  let name := segment_filename uri index in
  name <> "" /\ name <> "." /\ name <> ".." /\ has_char "/" name = false.
Proof.
  unfold segment_filename. destruct (path_file_name uri) as [c|] eqn:E.
  - exact (path_file_name_plain uri c E).
  - cbv zeta. repeat split; try discriminate.
    change (has_char "/" ("segment_" ++ pad6 index ++ ".ts")%string = false).
    rewrite !has_char_app, pad6_no_slash. reflexivity.
Qed.

Lemma decimal_value_app acc s1 s2 :
  decimal_value acc (s1 ++ s2) = decimal_value (decimal_value acc s1) s2.
Proof. revert acc. induction s1 as [|c s1 IH]; intros acc; simpl; [reflexivity | apply IH]. Qed.

Lemma decimal_value_acc s : forall acc,
  decimal_value acc s = acc * 10 ^ String.length s + decimal_value 0 s.
Proof.
  induction s as [|c s IH]; intros acc; cbn [decimal_value String.length]; [simpl; lia |].
  rewrite (IH (acc * 10 + (nat_of_ascii c - 48))), (IH (0 * 10 + (nat_of_ascii c - 48))).
  rewrite Nat.pow_succ_r'. ring.
Qed.

Lemma digit_char_value d : d < 10 -> nat_of_ascii (digit_char d) - 48 = d.
Proof. intros Hd. unfold digit_char. rewrite nat_ascii_embedding by lia. lia. Qed.

Lemma decimal_aux_value fuel : forall n acc, n < fuel ->
  decimal_value 0 (decimal_aux fuel n acc) = n * 10 ^ String.length acc + decimal_value 0 acc.
Proof.
  induction fuel as [|fuel IH]; intros n acc Hn; [lia |]. cbn [decimal_aux].
  assert (Hm : n mod 10 < 10) by (apply Nat.mod_upper_bound; lia).
  assert (Hs : decimal_value 0 (String (digit_char (n mod 10)) acc) =
               n mod 10 * 10 ^ String.length acc + decimal_value 0 acc).
  { cbn [decimal_value]. rewrite digit_char_value by exact Hm.
    rewrite decimal_value_acc. lia. }
  destruct (Nat.ltb_spec n 10) as [Hlt | Hge].
  - rewrite Hs, Nat.mod_small by exact Hlt. reflexivity.
  - rewrite IH by (assert (n / 10 < n) by (apply Nat.div_lt; lia); lia).
    rewrite Hs. cbn [String.length]. rewrite Nat.pow_succ_r'.
    pose proof (Nat.div_mod_eq n 10) as Hdm.
    set (q := n / 10) in *. set (r := n mod 10) in *.
    rewrite Hdm. ring.
Qed.

Lemma zeros_value k acc : decimal_value acc (String.concat "" (repeat "0" k)) = acc * 10 ^ k.
Proof.
  revert acc. induction k as [|k IH]; intros acc; [simpl; lia |].
  destruct k as [|k]; [simpl; lia |].
  change (String.concat "" (repeat "0" (S (S k))))
    with ("0" ++ "" ++ String.concat "" (repeat "0" (S k)))%string.
  rewrite !decimal_value_app, IH. simpl. ring.
Qed.

Lemma pad6_value n : decimal_value 0 (pad6 n) = n.
Proof.
  unfold pad6. rewrite decimal_value_app, zeros_value, Nat.mul_0_l.
  unfold decimal. rewrite decimal_aux_value by lia. simpl. lia.
Qed.

(** The fallback names [segment_{:06}.ts] of two positions whose URIs have
    no file name differ whenever the positions differ (also past six
    digits), so such segments never overwrite each other's file. *)
Theorem segment_fallback_names_distinct uri1 uri2 i j :
  path_file_name uri1 = None -> path_file_name uri2 = None ->
  segment_filename uri1 i = segment_filename uri2 j -> i = j.
Proof.
  unfold segment_filename. intros -> -> H.
  simpl in H. injection H as H.
  apply (f_equal (decimal_value 0)) in H.
  rewrite !decimal_value_app, !pad6_value in H.
  rewrite (decimal_value_acc ".ts" i), (decimal_value_acc ".ts" j) in H.
  simpl in H. lia.
Qed.

Lemma segment_fallback_names_distinct_witness :
  path_file_name "" = None /\ path_file_name "a/.." = None /\
  (segment_filename "" 7 = segment_filename "a/.." 7 -> 7 = 7).
Proof.
  split; [reflexivity | split; [reflexivity |]].
  apply segment_fallback_names_distinct; reflexivity.
Defined.

(* ------------------------------------------------------------------ *)
(** ** Decryptor: round trip and output length *)

Lemma lxor_lt_256 x y : (x < 256)%N -> (y < 256)%N -> (N.lxor x y < 256)%N.
Proof.
  assert (Hs : forall z, (z < 256)%N <-> N.shiftr z 8 = 0%N).
  { intros z. rewrite N.shiftr_div_pow2. change (2 ^ 8)%N with 256%N. split; intros H.
    - apply N.div_small. exact H.
    - pose proof (N.div_mod z 256 ltac:(lia)) as Hd. rewrite H in Hd.
      pose proof (N.mod_lt z 256 ltac:(lia)). lia. }
  intros Hx Hy. apply Hs. rewrite N.shiftr_lxor.
  apply Hs in Hx, Hy. rewrite Hx, Hy. reflexivity.
Qed.

Lemma xor_byte_to_N a b : Byte.to_N (xor_byte a b) = N.lxor (Byte.to_N a) (Byte.to_N b).
Proof.
  unfold xor_byte.
  assert (Hlt : (N.lxor (Byte.to_N a) (Byte.to_N b) < 256)%N).
  { apply lxor_lt_256; pose proof (Byte.to_N_bounded a); pose proof (Byte.to_N_bounded b); lia. }
  destruct (Byte.of_N _) as [c|] eqn:E.
  - apply Byte.to_of_N. exact E.
  - apply Byte.of_N_None_iff in E. lia.
Qed.

Lemma xor_byte_inv a b : xor_byte (xor_byte a b) b = a.
Proof.
  assert (H : Byte.to_N (xor_byte (xor_byte a b) b) = Byte.to_N a).
  { rewrite !xor_byte_to_N, N.lxor_assoc, N.lxor_nilpotent, N.lxor_0_r. reflexivity. }
  pose proof (Byte.of_to_N (xor_byte (xor_byte a b) b)) as H1.
  pose proof (Byte.of_to_N a) as H2. rewrite H in H1. congruence.
Qed.

Lemma xor_block_inv b p : length b = length p -> xor_block (xor_block b p) p = b.
Proof.
  revert p. induction b as [|x b IH]; intros [|y p] Hl; simpl in *; try lia; [reflexivity |].
  unfold xor_block in *. simpl. rewrite xor_byte_inv, IH by lia. reflexivity.
Qed.

Lemma length_xor_block b p : length (xor_block b p) = min (length b) (length p).
Proof. apply length_zip_with. Qed.

Lemma split_blocks_spec k : forall data, length data = 16 * k ->
  Forall (fun b => length b = 16) (split_blocks k data) /\
  List.concat (split_blocks k data) = data /\ length (split_blocks k data) = k.
Proof.
  induction k as [|k IH]; intros data Hl; simpl.
  - destruct data; [| simpl in Hl; lia]. split; [constructor | split; reflexivity].
  - destruct (IH (skipn 16 data)) as (H1 & H2 & H3); [rewrite length_skipn; lia |].
    split; [constructor; [rewrite length_firstn; lia | exact H1] |].
    rewrite H2, firstn_skipn, H3. split; reflexivity.
Qed.

Lemma length_concat_blocks (bs : list bytes) : Forall (fun b => length b = 16) bs ->
  length (List.concat bs) = 16 * length bs.
Proof.
  induction 1 as [|b bs Hb _ IH]; simpl; [reflexivity |].
  rewrite length_app, Hb, IH. lia.
Qed.

Lemma split_blocks_concat (bs : list bytes) : Forall (fun b => length b = 16) bs ->
  split_blocks (length bs) (List.concat bs) = bs.
Proof.
  induction 1 as [|b bs Hb _ IH]; simpl; [reflexivity |].
  rewrite firstn_app, skipn_app, Hb, firstn_all2, skipn_all2 by lia.
  rewrite Nat.sub_diag, firstn_O, skipn_O, app_nil_r, app_nil_l, IH. reflexivity.
Qed.

Lemma cbc_round_trip (enc dec : bytes -> bytes -> bytes) (key : bytes) :
  (forall b, length b = 16 -> length (enc key b) = 16 /\ dec key (enc key b) = b) ->
  forall bs prev, Forall (fun b => length b = 16) bs -> length prev = 16 ->
  cbc_decrypt_blocks dec key prev (cbc_encrypt_blocks enc key prev bs) = bs /\
  Forall (fun b => length b = 16) (cbc_encrypt_blocks enc key prev bs) /\
  length (cbc_encrypt_blocks enc key prev bs) = length bs.
Proof.
  intros Hinv bs. induction bs as [|b bs IH]; intros prev Hbs Hp; simpl; [auto |].
  inversion Hbs as [| ? ? Hb Hbs']; subst.
  assert (Hx : length (xor_block b prev) = 16) by (rewrite length_xor_block; lia).
  destruct (Hinv _ Hx) as [Hl Hd].
  destruct (IH _ Hbs' Hl) as (H1 & H2 & H3).
  rewrite Hd, xor_block_inv, H1 by lia. auto.
Qed.

Lemma split_blocks_snoc k : forall data,
  split_blocks (S k) data = split_blocks k data ++ [firstn 16 (skipn (16 * k) data)].
Proof.
  induction k as [|k IH]; intros data; [reflexivity |].
  change (split_blocks (S (S k)) data) with (firstn 16 data :: split_blocks (S k) (skipn 16 data)).
  rewrite IH, skipn_skipn. replace (16 * k + 16) with (16 * S k) by lia. reflexivity.
Qed.

Lemma firstn_add_split {A} (a b : nat) : forall l : list A,
  firstn (a + b) l = firstn a l ++ firstn b (skipn a l).
Proof.
  induction a as [|a IH]; intros l; [reflexivity |].
  destruct l as [|x l]; [destruct b; reflexivity |].
  cbn [Nat.add firstn skipn app]. rewrite IH. reflexivity.
Qed.

Lemma concat_split_blocks_firstn k : forall data, 16 * k <= length data ->
  List.concat (split_blocks k data) = firstn (16 * k) data.
Proof.
  induction k as [|k IH]; intros data Hl; [reflexivity |].
  cbn [split_blocks List.concat]. rewrite IH by (rewrite length_skipn; lia).
  replace (16 * S k) with (16 + 16 * k) by lia. rewrite firstn_add_split. reflexivity.
Qed.

Lemma pad_byte_to_nat n : n < 256 -> Byte.to_nat (pad_byte n) = n.
Proof.
  intros Hn. unfold pad_byte. destruct (Byte.of_nat n) as [b|] eqn:E.
  - apply Byte.to_of_nat. exact E.
  - apply Byte.of_nat_None_iff in E. lia.
Qed.

Lemma existsb_firstn_repeat k n b :
  existsb (fun v => negb (Byte.eqb v b)) (firstn k (repeat b n)) = false.
Proof.
  revert n. induction k as [|k IH]; intros [|n]; simpl; try reflexivity.
  rewrite (Byte.byte_dec_lb eq_refl : Byte.eqb b b = true). exact (IH n).
Qed.

Lemma pkcs7_unpad_pad q n : 1 <= n <= 16 -> length q + n = 16 ->
  pkcs7_unpad (q ++ repeat (pad_byte n) n) = Some q.
Proof.
  intros Hn Hq. unfold pkcs7_unpad.
  rewrite length_app, repeat_length, Hq.
  rewrite app_nth2 by lia. rewrite nth_repeat_lt by lia.
  rewrite pad_byte_to_nat by lia.
  destruct (Nat.eqb_spec n 0) as [|_]; [lia |].
  destruct (Nat.ltb_spec 16 n) as [|_]; [lia |]. cbn [orb].
  replace (16 - n) with (length q) by lia.
  rewrite drop_app_length, existsb_firstn_repeat, take_app_length. reflexivity.
Qed.

Lemma length_pkcs7_pad p : length (pkcs7_pad p) = S (length p / 16) * 16.
Proof.
  unfold pkcs7_pad. rewrite length_app, repeat_length.
  pose proof (Nat.div_mod_eq (length p) 16). pose proof (Nat.mod_upper_bound (length p) 16).
  lia.
Qed.

Lemma unpad_pkcs7_pad p : unpad_blocks (split_blocks (S (length p / 16)) (pkcs7_pad p)) = Some p.
Proof.
  set (k := length p / 16).
  assert (Hk : 16 * k <= length p) by apply Nat.Div0.mul_div_le.
  assert (Hr : length p - 16 * k < 16).
  { pose proof (Nat.div_mod_eq (length p) 16). pose proof (Nat.mod_upper_bound (length p) 16).
    unfold k. lia. }
  assert (Hm : length p mod 16 = length p - 16 * k).
  { pose proof (Nat.div_mod_eq (length p) 16). unfold k. lia. }
  rewrite split_blocks_snoc. unfold unpad_blocks. rewrite last_snoc.
  unfold pkcs7_pad. rewrite Hm.
  rewrite skipn_app. replace (16 * k - length p) with 0 by lia. rewrite skipn_O.
  rewrite firstn_all2 by (rewrite length_app, length_skipn, repeat_length; lia).
  rewrite pkcs7_unpad_pad by (rewrite ?length_skipn; lia).
  rewrite removelast_last, concat_split_blocks_firstn by (rewrite length_app; lia).
  rewrite firstn_app. replace (16 * k - length p) with 0 by lia.
  rewrite firstn_O, app_nil_r, firstn_skipn. reflexivity.
Qed.

(** [decrypt_segment] undoes AES-128-CBC encryption with PKCS#7 padding
    under the IV its position gives: for every 16-byte key, position and
    plaintext, decrypting the ciphertext of the plaintext yields the
    plaintext back, assuming only that the block decryption inverts the
    block encryption on 16-byte blocks. *)
Theorem decrypt_segment_round_trip (enc dec : bytes -> bytes -> bytes)
    (key : bytes) (position : nat) (plaintext : bytes) :
  length key = 16 ->
  (forall b, length b = 16 -> length (enc key b) = 16 /\ dec key (enc key b) = b) ->
  decrypt_segment dec (cbc_pkcs7_encrypt enc key (segment_iv position) plaintext) key position =
    Ok plaintext.
Proof.
  intros Hkey Hinv.
  pose proof (length_pkcs7_pad plaintext) as Hlp.
  set (padded := pkcs7_pad plaintext) in *.
  set (k := S (length plaintext / 16)) in *.
  destruct (split_blocks_spec k padded ltac:(lia)) as (Hb16 & _ & Hbn).
  assert (Hiv : length (segment_iv position) = 16) by apply length_be_bytes.
  destruct (cbc_round_trip enc dec key Hinv (split_blocks k padded) (segment_iv position) Hb16 Hiv)
    as (Hrt & Hc16 & Hcn).
  unfold cbc_pkcs7_encrypt. fold padded. rewrite Hlp, Nat.div_mul by lia. fold k.
  set (cblocks := cbc_encrypt_blocks enc key (segment_iv position) (split_blocks k padded)) in *.
  pose proof (length_concat_blocks cblocks Hc16) as Hcl.
  unfold decrypt_segment. rewrite Hkey. cbn [Nat.eqb negb].
  unfold decrypt_padded. rewrite Hcl, Hcn, Hbn.
  replace (16 * k) with (k * 16) by lia.
  rewrite Nat.Div0.mod_mul, Nat.div_mul by lia. cbn [Nat.eqb negb].
  rewrite <- Hbn at 1. rewrite <- Hcn, split_blocks_concat by exact Hc16.
  fold (segment_iv position). rewrite Hrt. unfold k, padded. rewrite unpad_pkcs7_pad. reflexivity.
Qed.

Lemma decrypt_segment_round_trip_witness :
  length (repeat x00 16) = 16 /\
  (forall b, length b = 16 ->
     length (identity_block (repeat x00 16) b) = 16 /\
     identity_block (repeat x00 16) (identity_block (repeat x00 16) b) = b) /\
  decrypt_segment identity_block
    (cbc_pkcs7_encrypt identity_block (repeat x00 16) (segment_iv 3) [x47; x01])
    (repeat x00 16) 3 = Ok [x47; x01].
Proof.
  assert (Hinv : forall b, length b = 16 ->
     length (identity_block (repeat x00 16) b) = 16 /\
     identity_block (repeat x00 16) (identity_block (repeat x00 16) b) = b)
    by (intros b Hb; split; [exact Hb | reflexivity]).
  split; [reflexivity | split; [exact Hinv |]].
  apply decrypt_segment_round_trip; [reflexivity | exact Hinv].
Defined.

Lemma cbc_decrypt_blocks_len (dec : bytes -> bytes -> bytes) (key : bytes) :
  (forall b, length b = 16 -> length (dec key b) = 16) ->
  forall bs prev, Forall (fun b => length b = 16) bs -> length prev = 16 ->
  Forall (fun b => length b = 16) (cbc_decrypt_blocks dec key prev bs) /\
  length (cbc_decrypt_blocks dec key prev bs) = length bs.
Proof.
  intros Hdec bs. induction bs as [|b bs IH]; intros prev Hbs Hp; simpl; [auto |].
  inversion Hbs as [| ? ? Hb Hbs']; subst.
  destruct (IH b Hbs' Hb) as [H1 H2].
  split; [constructor; [rewrite length_xor_block, (Hdec b Hb); lia | exact H1] | lia].
Qed.

Lemma pkcs7_unpad_length lb q : length lb = 16 -> pkcs7_unpad lb = Some q -> length q < 16.
Proof.
  intros Hl. unfold pkcs7_unpad. cbv zeta. rewrite Hl.
  destruct (Nat.eqb_spec (Byte.to_nat (nth (16 - 1) lb x00)) 0) as [|Hn]; [discriminate |].
  destruct (16 <? _); [discriminate |]. cbn [orb].
  destruct (existsb _ _); [discriminate |].
  intros Hq. injection Hq as <-. rewrite length_firstn. simpl in Hn. lia.
Qed.

(** What [decrypt_segment] returns on success is shorter than the
    ciphertext by 1 to 16 bytes (the removed padding), and the ciphertext
    was a whole number of 16-byte blocks: a segment file is never larger
    than the body it was decrypted from. *)
Theorem decrypt_segment_length (dec : bytes -> bytes -> bytes) (data key : bytes)
    (position : nat) (plain : bytes) :
  (forall b, length b = 16 -> length (dec key b) = 16) ->
  decrypt_segment dec data key position = Ok plain ->
  length data mod 16 = 0 /\ length plain < length data /\ length data <= length plain + 16.
Proof.
  intros Hdec. unfold decrypt_segment.
  destruct (negb (length key =? 16)); [discriminate |]. cbv zeta.
  unfold decrypt_padded.
  destruct (Nat.eqb_spec (length data mod 16) 0) as [Hm | Hm]; [| discriminate]. cbn [negb].
  pose proof (Nat.div_mod_eq (length data) 16) as Hdm. rewrite Hm, Nat.add_0_r in Hdm.
  set (k := length data / 16) in *.
  destruct (split_blocks_spec k data Hdm) as (Hb16 & _ & Hbn).
  assert (Hiv : length (segment_iv position) = 16) by apply length_be_bytes.
  destruct (cbc_decrypt_blocks_len dec key Hdec _ _ Hb16 Hiv) as [Hp16 Hpn].
  set (pblocks := cbc_decrypt_blocks dec key (segment_iv position) (split_blocks k data)) in *.
  unfold unpad_blocks.
  destruct pblocks as [|b0 bs0] eqn:Epb; [discriminate |].
  rewrite <- Epb in *.
  destruct (exists_last (l := pblocks) ltac:(rewrite Epb; discriminate)) as (init & lb & Hsplit).
  rewrite Hsplit, last_snoc, removelast_last.
  rewrite Hsplit in Hp16, Hpn.
  apply Forall_app in Hp16 as [Hinit Hlb]. inversion Hlb as [| ? ? Hlb16 _]; subst.
  destruct (pkcs7_unpad lb) as [q|] eqn:Eq; [| discriminate].
  intros Hr. injection Hr as <-.
  pose proof (pkcs7_unpad_length lb q Hlb16 Eq) as Hq.
  rewrite length_app, (length_concat_blocks init Hinit).
  rewrite length_app in Hpn. simpl in Hpn.
  split; [exact Hm | lia].
Qed.

Lemma decrypt_segment_length_witness :
  (forall b, length b = 16 -> length (identity_block (repeat x00 16) b) = 16) /\
  decrypt_segment identity_block (repeat (pad_byte 16) 16) (repeat x00 16) 0 = Ok [] /\
  (length (repeat (pad_byte 16) 16) mod 16 = 0 /\ length (@nil byte) < length (repeat (pad_byte 16) 16) /\
   length (repeat (pad_byte 16) 16) <= length (@nil byte) + 16).
Proof.
  assert (Hd : forall b, length b = 16 -> length (identity_block (repeat x00 16) b) = 16)
    by (intros b Hb; exact Hb).
  assert (He : decrypt_segment identity_block (repeat (pad_byte 16) 16) (repeat x00 16) 0 = Ok [])
    by (vm_compute; reflexivity).
  split; [exact Hd | split; [exact He |]].
  exact (decrypt_segment_length identity_block _ _ 0 [] Hd He).
Defined.

(* ------------------------------------------------------------------ *)
(** ** Key lookup *)

Local Open Scope string_scope.

Lemma str_app_cons c a b : String c a ++ b = String c (a ++ b).
Proof. reflexivity. Qed.

Lemma str_app_nil b : "" ++ b = b.
Proof. reflexivity. Qed.






Lemma str_take_drop n : forall s, str_take n s ++ str_drop n s = s.
Proof.
  induction n as [|n IH]; intros [|c s]; simpl; try reflexivity. rewrite str_app_cons, IH. reflexivity.
Qed.

Lemma str_drop_drop n : forall m s, str_drop m (str_drop n s) = str_drop (n + m) s.
Proof.
  induction n as [|n IH]; intros m [|c s]; simpl; try reflexivity.
  - destruct m; reflexivity.
  - apply IH.
Qed.

Lemma prefix_app a b : String.prefix a (a ++ b) = true.
Proof.
  induction a as [|x a IH]; [destruct b; reflexivity |].
  simpl. destruct (ascii_dec x x) as [_ | n]; [exact IH | contradiction].
Qed.


Lemma prefix_split pat : forall s, String.prefix pat s = true ->
  s = pat ++ str_drop (String.length pat) s.
Proof.
  induction pat as [|x pat IH]; intros s H; [reflexivity |].
  destruct s as [|y s]; [discriminate |]. simpl in H |- *.
  destruct (ascii_dec x y) as [<- | _]; [rewrite str_app_cons, <- (IH s H); reflexivity | discriminate].
Qed.

Lemma prefix_get pat : forall s n ch, String.prefix pat s = true ->
  String.get n pat = Some ch -> String.get n s = Some ch.
Proof.
  induction pat as [|x pat IH]; intros s n ch H Hg; [destruct n; discriminate |].
  destruct s as [|y s]; [discriminate |]. simpl in H.
  destruct (ascii_dec x y) as [<- | _]; [| discriminate].
  destruct n as [|n]; [exact Hg | exact (IH s n ch H Hg)].
Qed.

Lemma str_find_hit pat s : String.prefix pat s = true -> str_find pat s = Some 0.
Proof. destruct s; cbn [str_find]; intros ->; reflexivity. Qed.

Lemma str_find_le pat s : forall n, str_find pat s = Some n -> n <= String.length s.
Proof.
  induction s as [|c s IH]; intros n H; cbn [str_find] in H.
  - destruct (String.prefix pat ""); [injection H as <-; lia | discriminate].
  - destruct (String.prefix pat (String c s)); [injection H as <-; lia |].
    destruct (str_find pat s) as [m|] eqn:E; [| discriminate].
    injection H as <-. specialize (IH m eq_refl). simpl. lia.
Qed.

Lemma str_take_length n : forall s, n <= String.length s -> String.length (str_take n s) = n.
Proof.
  induction n as [|n IH]; intros [|c s] H; simpl in *; try lia.
  rewrite IH by lia. reflexivity.
Qed.

(** [find] gives the first occurrence. *)
Lemma str_find_first pat b : forall a n,
  str_find pat (b ++ pat ++ a) = Some n -> n <= String.length b.
Proof.
  induction b as [|c b IH]; intros a n H.
  - rewrite str_app_nil, (str_find_hit _ _ (prefix_app pat a)) in H. injection H as <-. lia.
  - rewrite str_app_cons in H. cbn [str_find] in H.
    destruct (String.prefix pat (String c (b ++ pat ++ a))); [injection H as <-; lia |].
    destruct (str_find pat (b ++ pat ++ a)) as [m|] eqn:E; [| discriminate].
    injection H as <-. specialize (IH a m E). simpl. lia.
Qed.






Lemma find_quote_spec t : forall j, str_find (String quote "") t = Some j ->
  has_char quote (str_take j t) = false /\ exists rest, str_drop j t = String quote rest.
Proof.
  induction t as [|c t IH]; intros j H; [discriminate |].
  cbn [str_find] in H.
  destruct (ascii_dec quote c) as [<- | Hne].
  - assert (Hp : String.prefix (String quote "") (String quote t) = true)
      by exact (prefix_app (String quote "") t).
    rewrite Hp in H.
    injection H as <-. split; [reflexivity | exists t; reflexivity].
  - assert (Hp : String.prefix (String quote "") (String c t) = false)
      by (cbn [String.prefix]; destruct (ascii_dec quote c); [contradiction | reflexivity]).
    rewrite Hp in H.
    destruct (str_find (String quote "") t) as [j'|] eqn:E; [| discriminate].
    injection H as <-. destruct (IH j' eq_refl) as [H1 H2].
    split; [| exact H2]. simpl. rewrite H1.
    destruct (Ascii.eqb_spec c quote); [congruence | reflexivity].
Qed.

Lemma str_find_prefix pat s : forall i, str_find pat s = Some i ->
  String.prefix pat (str_drop i s) = true.
Proof.
  induction s as [|c s IH]; intros i H; cbn [str_find] in H.
  - destruct (String.prefix pat "") eqn:Ep; [injection H as <-; exact Ep | discriminate].
  - destruct (String.prefix pat (String c s)) eqn:Ep; [injection H as <-; exact Ep |].
    destruct (str_find pat s) as [i'|]; [| discriminate]. injection H as <-. exact (IH i' eq_refl).
Qed.


(** What [extract_encryption_key] takes for the key URI comes from a line
    starting with [#EXT-X-KEY:]: it is exactly the text between the first
    [uri_marker] of that line and the next double quote, and it holds no
    double quote itself. *)
Theorem key_uri_of_line_sound line key_uri :
  key_uri_of_line line = Some key_uri ->
  String.prefix "#EXT-X-KEY:" line = true /\ has_char quote key_uri = false /\
  exists before after, line = before ++ uri_marker ++ key_uri ++ String quote after /\
    forall b a, line = b ++ uri_marker ++ a -> String.length before <= String.length b.
Proof.
  unfold key_uri_of_line.
  destruct (String.prefix "#EXT-X-KEY:" line) eqn:Ek; [| discriminate].
  destruct (str_find uri_marker line) as [i|] eqn:Ei; [| discriminate].
  destruct (str_find (String quote "") (str_drop (i + 5) line)) as [j|] eqn:Ej; [| discriminate].
  intros H. injection H as <-.
  destruct (find_quote_spec _ j Ej) as [Hq [rest Hrest]].
  split; [reflexivity | split; [exact Hq |]].
  exists (str_take i line), rest. split.
  - pose proof (prefix_split uri_marker _ (str_find_prefix _ _ _ Ei)) as Hm.
    rewrite str_drop_drop in Hm. change (String.length uri_marker) with 5 in Hm.
    rewrite <- Hrest, str_take_drop, <- Hm, str_take_drop. reflexivity.
  - intros b a Hl.
    rewrite (str_take_length i line (str_find_le _ _ _ Ei)).
    rewrite Hl in Ei. exact (str_find_first _ _ _ _ Ei).
Qed.

Lemma key_uri_of_line_sound_witness :
  key_uri_of_line ("#EXT-X-KEY:METHOD=AES-128," ++ uri_marker ++ "a" ++ String quote "," ++
                   uri_marker ++ "b" ++ String quote "") = Some "a" /\
  String.prefix "#EXT-X-KEY:" ("#EXT-X-KEY:METHOD=AES-128," ++ uri_marker ++ "a" ++ String quote "," ++
                   uri_marker ++ "b" ++ String quote "") = true /\
  has_char quote "a" = false /\
  exists before after,
    ("#EXT-X-KEY:METHOD=AES-128," ++ uri_marker ++ "a" ++ String quote "," ++
     uri_marker ++ "b" ++ String quote "") =
    before ++ uri_marker ++ "a" ++ String quote after /\
    forall b a,
      ("#EXT-X-KEY:METHOD=AES-128," ++ uri_marker ++ "a" ++ String quote "," ++
       uri_marker ++ "b" ++ String quote "") = b ++ uri_marker ++ a ->
      String.length before <= String.length b.
Proof.
  assert (H : key_uri_of_line ("#EXT-X-KEY:METHOD=AES-128," ++ uri_marker ++ "a" ++ String quote "," ++
                   uri_marker ++ "b" ++ String quote "") = Some "a") by (vm_compute; reflexivity).
  split; [exact H |]. exact (key_uri_of_line_sound _ _ H).
Defined.

Lemma key_uri_of_line_no_prefix line :
  String.prefix "#EXT-X-KEY:" line = false -> key_uri_of_line line = None.
Proof. unfold key_uri_of_line. intros ->. reflexivity. Qed.

(** Without a line starting with [#EXT-X-KEY:], [extract_encryption_key]
    returns [Ok None] whatever the server does: no key request is made and
    the segments are stored as fetched. *)
Theorem extract_encryption_key_none join http n m3u8_content :
  Forall (fun l => String.prefix "#EXT-X-KEY:" l = false) (lines m3u8_content) ->
  extract_encryption_key join http n m3u8_content = Ok None.
Proof.
  intros H. unfold extract_encryption_key.
  assert (Hf : first_key_uri (lines m3u8_content) = None).
  { induction H as [|l ls Hl _ IH]; [reflexivity |].
    simpl. rewrite key_uri_of_line_no_prefix by exact Hl. exact IH. }
  rewrite Hf. reflexivity.
Qed.

Lemma extract_encryption_key_none_witness :
  Forall (fun l => String.prefix "#EXT-X-KEY:" l = false)
    (lines ("#EXTM3U" ++ String newline "a.ts" ++ String newline "")) /\
  extract_encryption_key no_join no_server 0 ("#EXTM3U" ++ String newline "a.ts" ++ String newline "") = Ok None.
Proof.
  assert (H : Forall (fun l => String.prefix "#EXT-X-KEY:" l = false)
                (lines ("#EXTM3U" ++ String newline "a.ts" ++ String newline "")))
    by (vm_compute; repeat constructor).
  split; [exact H | exact (extract_encryption_key_none no_join no_server 0 _ H)].
Defined.








Local Close Scope string_scope.

(* ------------------------------------------------------------------ *)
(** ** Assembler: frame and prefix lemmas *)

Lemma merge_loop_frame (temp : string) (uris : list string) :
  forall idx (fs fs' : dir) r,
  merge_loop temp uris idx fs = (r, fs') ->
  forall k, k <> temp -> fs' !! k = fs !! k.
Proof.
  induction uris as [|uri rest IH]; intros idx fs fs' r Hm k Hk; cbn [merge_loop] in Hm.
  - injection Hm as _ <-. reflexivity.
  - destruct (fs !! segment_filename uri idx) as [buffer|].
    + rewrite (IH _ _ _ _ Hm k Hk). apply lookup_insert_ne. congruence.
    + injection Hm as _ <-. reflexivity.
Qed.

Lemma merge_loop_prefix (temp : string) (pre : list string) :
  forall rest (bs : list bytes) idx (fs : dir) acc,
  length bs = length pre ->
  (forall i uri, pre !! i = Some uri ->
     segment_filename uri (idx + i) <> temp /\
     exists b, bs !! i = Some b /\ fs !! segment_filename uri (idx + i) = Some b) ->
  merge_loop temp (pre ++ rest) idx (<[temp := acc]> fs) =
    merge_loop temp rest (idx + length pre) (<[temp := acc ++ List.concat bs]> fs).
Proof.
  induction pre as [|uri pre IH]; intros rest bs idx fs acc Hlen Hall.
  - destruct bs; [| discriminate]. cbn [app length List.concat].
    rewrite Nat.add_0_r, app_nil_r. reflexivity.
  - destruct bs as [|b bs]; [discriminate |]. simpl in Hlen.
    destruct (Hall 0 uri eq_refl) as [Hne (b0 & Hb0 & Hfs)].
    simpl in Hb0. injection Hb0 as <-. rewrite Nat.add_0_r in Hne, Hfs.
    cbn [app merge_loop].
    rewrite lookup_insert_ne by congruence. rewrite Hfs, lookup_insert_eq.
    cbn [default]. rewrite insert_insert_eq.
    change (id acc) with acc.
    rewrite (IH rest bs (S idx) fs (acc ++ b)).
    + replace (S idx + length pre) with (idx + length (uri :: pre)) by (simpl; lia).
      cbn [List.concat]. rewrite app_assoc. reflexivity.
    + lia.
    + intros i u Hu. destruct (Hall (S i) u Hu) as [Hne' (b' & Hb' & Hfs')].
      replace (S idx + i) with (idx + S i) by lia. eauto.
Qed.

Lemma merge_loop_all (temp : string) (uris : list string) (bs : list bytes) idx (fs : dir) acc :
  length bs = length uris ->
  (forall i uri, uris !! i = Some uri ->
     segment_filename uri (idx + i) <> temp /\
     exists b, bs !! i = Some b /\ fs !! segment_filename uri (idx + i) = Some b) ->
  merge_loop temp uris idx (<[temp := acc]> fs) = (Ok tt, <[temp := acc ++ List.concat bs]> fs).
Proof.
  intros Hlen Hall.
  pose proof (merge_loop_prefix temp uris [] bs idx fs acc Hlen Hall) as E.
  rewrite app_nil_r in E. rewrite E. reflexivity.
Qed.

(** [merge_segments]: with the segment files of [pre] present, and no
    segment file read so far or the missing one named like the temporary
    file [{output_filename}_temp.ts], the first missing segment file stops the assembly with [MissingSegment] naming it;
    ffmpeg and the clean-up never run, nothing is logged, and the directory
    is left with the temporary file holding the segments read so far. *)
Theorem merge_segments_missing_segment (env : merge_env) (output_filename : string)
    (pre : list string) (uri : string) (post : list string) (fs : dir) (bs : list bytes) :
  length bs = length pre ->
  (forall i u, pre !! i = Some u ->
     segment_filename u i <> temp_ts_name output_filename /\
     exists b, bs !! i = Some b /\ fs !! segment_filename u i = Some b) ->
  segment_filename uri (length pre) <> temp_ts_name output_filename ->
  fs !! segment_filename uri (length pre) = None ->
  merge_segments env output_filename (pre ++ uri :: post) fs =
    (Err (MissingSegment (segment_filename uri (length pre))),
     <[temp_ts_name output_filename := List.concat bs]> fs, []).
Proof.
  intros Hlen Hall Hne Hnone. unfold merge_segments.
  rewrite (merge_loop_prefix _ pre (uri :: post) bs 0 fs [] Hlen Hall).
  cbn [merge_loop Nat.add app].
  rewrite lookup_insert_ne by congruence. rewrite Hnone. reflexivity.
Qed.

Lemma merge_segments_missing_segment_witness :
  length [[x41]] = length ["a.ts"] /\
  (forall i u, ["a.ts"] !! i = Some u ->
     segment_filename u i <> temp_ts_name "out" /\
     exists b, [[x41]] !! i = Some b /\ abc_dir !! segment_filename u i = Some b) /\
  segment_filename "d.ts" 1 <> temp_ts_name "out" /\
  abc_dir !! segment_filename "d.ts" 1 = None /\
  merge_segments (cleanup_env true true) "out" (["a.ts"] ++ "d.ts" :: ["c.ts"]) abc_dir =
    (Err (MissingSegment (segment_filename "d.ts" (length ["a.ts"]))),
     <[temp_ts_name "out" := List.concat [[x41]]]> abc_dir, []).
Proof.
  assert (H2 : forall i u, ["a.ts"] !! i = Some u ->
     segment_filename u i <> temp_ts_name "out" /\
     exists b, [[x41]] !! i = Some b /\ abc_dir !! segment_filename u i = Some b).
  { intros [|i] u Hu; [| destruct i; discriminate].
    injection Hu as <-. split.
    - intros E. vm_compute in E. discriminate E.
    - exists [x41]. split; reflexivity. }
  assert (H3 : segment_filename "d.ts" 1 <> temp_ts_name "out")
    by (intros E; vm_compute in E; discriminate E).
  assert (H4 : abc_dir !! segment_filename "d.ts" 1 = None) by reflexivity.
  split; [reflexivity |]. split; [exact H2 |]. split; [exact H3 |]. split; [exact H4 |].
  exact (merge_segments_missing_segment (cleanup_env true true) "out" ["a.ts"] "d.ts" ["c.ts"]
           abc_dir [[x41]] eq_refl H2 H3 H4).
Defined.

(** [merge_segments]: whenever it fails, nothing is logged and every file of
    the download directory other than the temporary file is as before. *)
Theorem merge_segments_failure_frame (env : merge_env) (output_filename : string)
    (uris : list string) (fs fs' : dir) (r : result unit) (logs : list merge_log) :
  merge_segments env output_filename uris fs = (r, fs', logs) ->
  is_err r = true ->
  logs = [] /\ forall k, k <> temp_ts_name output_filename -> fs' !! k = fs !! k.
Proof.
  intros H Herr. unfold merge_segments in H.
  destruct (merge_loop _ uris 0 _) as [[u|e] fs1] eqn:Hm.
  - assert (Hf : forall k, k <> temp_ts_name output_filename -> fs1 !! k = fs !! k).
    { intros k Hk. rewrite (merge_loop_frame _ _ _ _ _ _ Hm k Hk).
      apply lookup_insert_ne. congruence. }
    destruct (ffmpeg env _) as [[|]|];
      [destruct (remove_temp_ok env), (remove_dir_ok env) |..]; simpl in H;
      injection H as <- <- <-; try discriminate Herr; split; auto.
  - injection H as <- <- <-. split; [reflexivity |].
    intros k Hk. rewrite (merge_loop_frame _ _ _ _ _ _ Hm k Hk).
    apply lookup_insert_ne. congruence.
Qed.

Lemma merge_segments_failure_frame_witness :
  merge_segments (cleanup_env true true) "out" ["a.ts"; "d.ts"] abc_dir =
    (Err (MissingSegment "d.ts"), <[temp_ts_name "out" := [x41]]> abc_dir, []) /\
  is_err (Err (A := unit) (MissingSegment "d.ts")) = true /\
  ([] : list merge_log) = [] /\
  (forall k, k <> temp_ts_name "out" ->
     (<[temp_ts_name "out" := [x41]]> abc_dir) !! k = abc_dir !! k).
Proof.
  assert (H1 : merge_segments (cleanup_env true true) "out" ["a.ts"; "d.ts"] abc_dir =
    (Err (MissingSegment "d.ts"), <[temp_ts_name "out" := [x41]]> abc_dir, [])) by reflexivity.
  split; [exact H1 |]. split; [reflexivity |].
  exact (merge_segments_failure_frame _ _ _ _ _ _ _ H1 eq_refl).
Defined.

(* ------------------------------------------------------------------ *)
(** ** End of [download]: results check and merge *)

Lemma check_results_oks (oks : list task_outcome) rest i :
  Forall task_returned_ok oks ->
  check_results i (oks ++ rest) = check_results (i + length oks) rest.
Proof.
  revert i; induction oks as [|o oks IH]; intros i Hoks.
  - rewrite Nat.add_0_r. reflexivity.
  - inversion Hoks as [|? ? [u ->] Hrest]; subst.
    cbn [app check_results length]. rewrite IH by exact Hrest. f_equal. lia.
Qed.

(** [download]: when the first tasks returned [Ok] and the next one failed
    or panicked, [download] reports that index, never merges, and leaves
    the download directory untouched; the later tasks do not matter. *)
Theorem download_finish_first_failure (env : merge_env) (output_filename : string)
    (uris : list string) (fs : dir) (oks : list task_outcome) (bad : task_outcome)
    (rest : list task_outcome) :
  Forall task_returned_ok oks ->
  match bad with TaskReturned (Ok _) => False | _ => True end ->
  download_finish env output_filename uris fs (oks ++ bad :: rest) =
    (DownloadErr (match bad with
                  | TaskReturned (Err e) => SegmentFailed (length oks) e
                  | _ => TaskFailed (length oks)
                  end), fs, []).
Proof.
  intros Hoks Hbad. unfold download_finish.
  rewrite (check_results_oks oks (bad :: rest) 0 Hoks). cbn [Nat.add].
  destruct bad as [[u|e]|]; [contradiction | reflexivity | reflexivity].
Qed.

Lemma download_finish_first_failure_witness :
  Forall task_returned_ok [TaskReturned (Ok tt); TaskReturned (Ok tt)] /\
  download_finish (cleanup_env true true) "out" ["a.ts"; "b.ts"; "c.ts"] abc_dir
    ([TaskReturned (Ok tt); TaskReturned (Ok tt)] ++ TaskPanicked :: [TaskReturned (Err TransportError)]) =
    (DownloadErr (TaskFailed 2), abc_dir, []).
Proof.
  assert (H1 : Forall task_returned_ok [TaskReturned (Ok tt); TaskReturned (Ok tt)]).
  { repeat constructor; exists tt; reflexivity. }
  split; [exact H1 |].
  exact (download_finish_first_failure (cleanup_env true true) "out" ["a.ts"; "b.ts"; "c.ts"]
           abc_dir _ TaskPanicked [TaskReturned (Err TransportError)] H1 I).
Defined.

(** [download]: when every task returned [Ok] and every segment file is
    there under a name other than the temporary file's
    [{output_filename}_temp.ts], [download] succeeds exactly when ffmpeg
    accepts the concatenated segments and the temporary file is removed; a
    failed removal of the download directory does not matter. *)
Theorem download_finish_all_ok (env : merge_env) (output_filename : string)
    (uris : list string) (fs : dir) (results : list task_outcome) (bs : list bytes) :
  Forall task_returned_ok results ->
  length bs = length uris ->
  (forall i uri, uris !! i = Some uri ->
     segment_filename uri i <> temp_ts_name output_filename /\
     exists b, bs !! i = Some b /\ fs !! segment_filename uri i = Some b) ->
  fst (fst (download_finish env output_filename uris fs results)) = DownloadOk <->
  ffmpeg env (List.concat bs) = Some true /\ remove_temp_ok env = true.
Proof.
  intros Hres Hlen Hall. unfold download_finish.
  pose proof (check_results_oks results [] 0 Hres) as Hc.
  rewrite app_nil_r in Hc. rewrite Hc. cbn [check_results].
  unfold merge_segments.
  rewrite (merge_loop_all _ uris bs 0 fs [] Hlen Hall).
  rewrite lookup_insert_eq. simpl.
  destruct (ffmpeg env (List.concat bs)) as [[|]|];
    [destruct (remove_temp_ok env), (remove_dir_ok env) |..]; simpl;
    intuition congruence.
Qed.

Lemma download_finish_all_ok_witness :
  Forall task_returned_ok [TaskReturned (Ok tt); TaskReturned (Ok tt)] /\
  (fst (fst (download_finish (cleanup_env true false) "out" ["a.ts"; "b.ts"] abc_dir
                [TaskReturned (Ok tt); TaskReturned (Ok tt)])) = DownloadOk <->
   ffmpeg (cleanup_env true false) (List.concat [[x41]; [x42; x42]]) = Some true /\
   remove_temp_ok (cleanup_env true false) = true).
Proof.
  assert (H1 : Forall task_returned_ok [TaskReturned (Ok tt); TaskReturned (Ok tt)]).
  { repeat constructor; exists tt; reflexivity. }
  assert (H3 : forall i uri, ["a.ts"; "b.ts"] !! i = Some uri ->
     segment_filename uri i <> temp_ts_name "out" /\
     exists b, [[x41]; [x42; x42]] !! i = Some b /\ abc_dir !! segment_filename uri i = Some b).
  { intros [|[|i]] uri Hu; [injection Hu as <- | injection Hu as <- | discriminate Hu];
      (split; [intros E; vm_compute in E; discriminate E | eexists; split; reflexivity]). }
  split; [exact H1 |].
  exact (download_finish_all_ok (cleanup_env true false) "out" ["a.ts"; "b.ts"] abc_dir _
           [[x41]; [x42; x42]] H1 eq_refl H3).
Defined.

(* ------------------------------------------------------------------ *)
(** ** [merge_segments] of [src/downloader/segment.rs] *)

(** Whatever its outcome, the assembler of [src/downloader/segment.rs]
    changes no file of the directory other than [temp.ts]: the segment
    files stay, and the directory is never removed. *)
Theorem merge_segments_downloader_frame (env : merge_env) (uris : list string)
    (fs fs' : dir) (r : result unit) :
  merge_segments_downloader env uris fs = (r, fs') ->
  forall k, k <> "temp.ts"%string -> fs' !! k = fs !! k.
Proof.
  intros H k Hk. unfold merge_segments_downloader in H.
  destruct (merge_loop _ uris 0 _) as [[u|e] fs1] eqn:Hm.
  - assert (Hf : fs1 !! k = fs !! k).
    { rewrite (merge_loop_frame _ _ _ _ _ _ Hm k Hk). apply lookup_insert_ne. congruence. }
    destruct (ffmpeg env _) as [[|]|]; injection H as <- <-; [| exact Hf | exact Hf].
    destruct (remove_temp_ok env); [| exact Hf].
    rewrite lookup_delete_ne by congruence. exact Hf.
  - injection H as <- <-.
    rewrite (merge_loop_frame _ _ _ _ _ _ Hm k Hk). apply lookup_insert_ne. congruence.
Qed.

Lemma merge_segments_downloader_frame_witness :
  merge_segments_downloader (cleanup_env false false) ["a.ts"; "b.ts"] abc_dir =
    (Ok tt, <[ "temp.ts"%string := [x41; x42; x42] ]> abc_dir) /\
  (forall k, k <> "temp.ts"%string ->
     (<[ "temp.ts"%string := [x41; x42; x42] ]> abc_dir) !! k = abc_dir !! k).
Proof.
  assert (H1 : merge_segments_downloader (cleanup_env false false) ["a.ts"; "b.ts"] abc_dir =
    (Ok tt, <[ "temp.ts"%string := [x41; x42; x42] ]> abc_dir)) by reflexivity.
  split; [exact H1 |].
  exact (merge_segments_downloader_frame _ _ _ _ _ H1).
Defined.

(** With every segment file present and none of them named [temp.ts],
    the assembler of [src/downloader/segment.rs] succeeds exactly when ffmpeg accepts the
    concatenated segments, whether or not [temp.ts] can be removed. *)
Theorem merge_segments_downloader_ok (env : merge_env) (uris : list string)
    (fs : dir) (bs : list bytes) :
  length bs = length uris ->
  (forall i uri, uris !! i = Some uri ->
     segment_filename uri i <> "temp.ts"%string /\
     exists b, bs !! i = Some b /\ fs !! segment_filename uri i = Some b) ->
  fst (merge_segments_downloader env uris fs) = Ok tt <->
  ffmpeg env (List.concat bs) = Some true.
Proof.
  intros Hlen Hall. unfold merge_segments_downloader.
  rewrite (merge_loop_all _ uris bs 0 fs [] Hlen Hall).
  rewrite lookup_insert_eq. simpl.
  destruct (ffmpeg env (List.concat bs)) as [[|]|]; simpl; intuition congruence.
Qed.

Lemma merge_segments_downloader_ok_witness :
  length [[x41]; [x42; x42]] = length ["a.ts"; "b.ts"] /\
  (forall i uri, ["a.ts"; "b.ts"] !! i = Some uri ->
     segment_filename uri i <> "temp.ts"%string /\
     exists b, [[x41]; [x42; x42]] !! i = Some b /\ abc_dir !! segment_filename uri i = Some b) /\
  (fst (merge_segments_downloader (cleanup_env false false) ["a.ts"; "b.ts"] abc_dir) = Ok tt <->
   ffmpeg (cleanup_env false false) (List.concat [[x41]; [x42; x42]]) = Some true).
Proof.
  assert (H2 : forall i uri, ["a.ts"; "b.ts"] !! i = Some uri ->
     segment_filename uri i <> "temp.ts"%string /\
     exists b, [[x41]; [x42; x42]] !! i = Some b /\ abc_dir !! segment_filename uri i = Some b).
  { intros [|[|i]] uri Hu; [injection Hu as <- | injection Hu as <- | discriminate Hu];
      (split; [intros E; vm_compute in E; discriminate E | eexists; split; reflexivity]). }
  split; [reflexivity |]. split; [exact H2 |].
  exact (merge_segments_downloader_ok (cleanup_env false false) ["a.ts"; "b.ts"] abc_dir
           [[x41]; [x42; x42]] eq_refl H2).
Defined.

(* ------------------------------------------------------------------ *)
(** ** [process_download_tasks] of [src/downloader/mod.rs] *)

Lemma sublist_same_length {A} (l1 l2 : list A) :
  l1 `sublist_of` l2 -> length l2 <= length l1 -> l1 = l2.
Proof.
  induction 1 as [|x l1 l2 Hs IH|x l1 l2 Hs IH]; intros Hle.
  - reflexivity.
  - simpl in Hle. rewrite IH by lia. reflexivity.
  - apply sublist_length in Hs. simpl in Hle. lia.
Qed.

Lemma process_loop_skip_inv (W : Type) (pdt : DownloadTask -> W -> result unit * W)
    (ol : W -> dir) (ts : list DownloadTask) :
  forall w s k f a s' k' f' a' w',
  process_loop_skip W pdt ol ts w s k f a = (s', k', f', a', w') ->
  exists a_new, a' = a ++ a_new /\ map fst a_new `sublist_of` ts /\
    length k' + length a_new = length k + length ts /\
    length f' = length f + length (List.filter (fun x => is_err (snd x)) a_new).
Proof.
  induction ts as [|task rest IH]; intros w s k f a s' k' f' a' w' H; cbn [process_loop_skip] in H.
  - injection H as <- <- <- <- <-. exists []. rewrite app_nil_r.
    split; [reflexivity |]. split; [constructor |]. simpl. lia.
  - destruct (is_already_downloaded task (ol w)).
    + destruct (IH _ _ _ _ _ _ _ _ _ _ H) as (an & -> & Hsub & Hk & Hf).
      exists an. split; [reflexivity |]. split; [apply sublist_cons; exact Hsub |].
      rewrite length_app in Hk. simpl in *. lia.
    + destruct (pdt task w) as [[u|e] w1].
      * destruct (IH _ _ _ _ _ _ _ _ _ _ H) as (an & -> & Hsub & Hk & Hf).
        exists ((task, Ok tt) :: an). rewrite <- app_assoc.
        split; [reflexivity |]. split; [simpl; apply sublist_skip; exact Hsub |].
        simpl in *. lia.
      * destruct (IH _ _ _ _ _ _ _ _ _ _ H) as (an & -> & Hsub & Hk & Hf).
        exists ((task, Err e) :: an). rewrite <- app_assoc.
        split; [reflexivity |]. split; [simpl; apply sublist_skip; exact Hsub |].
        rewrite length_app in Hf. simpl in *. lia.
Qed.

Lemma process_loop_skip_static (W : Type) (pdt : DownloadTask -> W -> result unit * W)
    (ol : W -> dir) (ts : list DownloadTask) :
  (forall t w1, ol (snd (pdt t w1)) = ol w1) ->
  forall w s k f a s' k' f' a' w',
  process_loop_skip W pdt ol ts w s k f a = (s', k', f', a', w') ->
  map fst a' = (map fst a ++ List.filter (fun t => negb (is_already_downloaded t (ol w))) ts)%list.
Proof.
  intros Hs. induction ts as [|task rest IH]; intros w s k f a s' k' f' a' w' H;
    cbn [process_loop_skip] in H.
  - injection H as _ _ _ <- _. rewrite app_nil_r. reflexivity.
  - cbn [List.filter]. destruct (is_already_downloaded task (ol w)) eqn:E.
    + exact (IH _ _ _ _ _ _ _ _ _ _ H).
    + pose proof (Hs task w) as Hol.
      destruct (pdt task w) as [[u|e] w1]; cbn [snd] in Hol;
        rewrite (IH _ _ _ _ _ _ _ _ _ _ H), Hol, map_app, <- app_assoc; reflexivity.
Qed.

Lemma process_loop_skip_mono (W : Type) (pdt : DownloadTask -> W -> result unit * W)
    (ol : W -> dir) (ts : list DownloadTask) :
  (forall t w1 t', is_already_downloaded t' (ol w1) = true ->
                   is_already_downloaded t' (ol (snd (pdt t w1))) = true) ->
  forall w s k f a s' k' f' a' w',
  process_loop_skip W pdt ol ts w s k f a = (s', k', f', a', w') ->
  forall t, is_already_downloaded t (ol w) = true ->
  In t (map fst a') -> In t (map fst a).
Proof.
  intros Hm. induction ts as [|task rest IH]; intros w s k f a s' k' f' a' w' H t Ht Hin;
    cbn [process_loop_skip] in H.
  - injection H as _ _ _ <- _. exact Hin.
  - destruct (is_already_downloaded task (ol w)) eqn:E.
    + exact (IH _ _ _ _ _ _ _ _ _ _ H t Ht Hin).
    + pose proof (Hm task w t Ht) as Ht1.
      destruct (pdt task w) as [[u|e] w1]; cbn [snd] in Ht1;
        pose proof (IH _ _ _ _ _ _ _ _ _ _ H t Ht1 Hin) as Hin';
        rewrite map_app in Hin'; apply in_app_or in Hin' as [Hin' | [Heq | []]];
        [exact Hin' | cbn [fst] in Heq; subst t; congruence | exact Hin' | cbn [fst] in Heq; subst t; congruence].
Qed.

(** The batch driver of [src/downloader/mod.rs], once [./output] exists:
    the tasks it runs are tasks of the batch, in order, and it fails
    exactly when it ran every task and every one failed; so a batch with a
    skipped task never fails, and an empty batch always does.  The skip is
    [is_already_downloaded] on [./output]: when running a task leaves
    [./output] as it was, the tasks run are exactly those whose
    [{name}.mp4] there is missing or empty; and when running a task never
    removes or empties a finished [{name}.mp4], a task already downloaded
    at the start is never run. *)
Theorem process_download_tasks_skip_outcome (W : Type)
    (pdt : DownloadTask -> W -> result unit * W) (ol : W -> dir)
    (cod : W -> option W) (ts : list DownloadTask) (w w0 : W)
    (r : option batch_err) (attempts : list (DownloadTask * result unit)) :
  cod w = Some w0 ->
  process_download_tasks_skip W pdt ol cod ts w = (r, attempts) ->
  map fst attempts `sublist_of` ts /\
  (r = Some AllTasksFailedMsg <->
     map fst attempts = ts /\ Forall (fun a => is_err (snd a) = true) attempts) /\
  r <> Some CreateOutputDirFailed /\
  ((forall t w1, ol (snd (pdt t w1)) = ol w1) ->
     map fst attempts = List.filter (fun t => negb (is_already_downloaded t (ol w0))) ts) /\
  ((forall t w1 t', is_already_downloaded t' (ol w1) = true ->
                    is_already_downloaded t' (ol (snd (pdt t w1))) = true) ->
     forall t, is_already_downloaded t (ol w0) = true -> ~ In t (map fst attempts)).
Proof.
  intros Hc H. unfold process_download_tasks_skip in H. rewrite Hc in H.
  destruct (process_loop_skip W pdt ol ts w0 [] [] [] []) as [[[[s k] f] a] w'] eqn:Hl.
  assert (Hstatic : (forall t w1, ol (snd (pdt t w1)) = ol w1) ->
     map fst a = List.filter (fun t => negb (is_already_downloaded t (ol w0))) ts).
  { intros Hs. exact (process_loop_skip_static W pdt ol ts Hs _ _ _ _ _ _ _ _ _ _ Hl). }
  assert (Hmono : (forall t w1 t', is_already_downloaded t' (ol w1) = true ->
                    is_already_downloaded t' (ol (snd (pdt t w1))) = true) ->
     forall t, is_already_downloaded t (ol w0) = true -> ~ In t (map fst a)).
  { intros Hm t Ht Hin. exact (process_loop_skip_mono W pdt ol ts Hm _ _ _ _ _ _ _ _ _ _ Hl t Ht Hin). }
  destruct (process_loop_skip_inv W pdt ol ts _ _ _ _ _ _ _ _ _ _ Hl)
    as (an & Ea & Hsub & Hk & Hf).
  simpl in Ea. subst a. simpl in Hf.
  pose proof (filter_length_le (fun x : DownloadTask * result unit => is_err (snd x)) an) as Hle.
  pose proof (sublist_length _ _ Hsub) as Hsl. rewrite length_map in Hsl.
  destruct (length f =? length ts) eqn:E; injection H as <- <-.
  - apply Nat.eqb_eq in E.
    split; [exact Hsub |]. split; [| split; [discriminate | split; [exact Hstatic | exact Hmono]]].
    split; [intros _ |].
    + split.
      * apply sublist_same_length; [exact Hsub | rewrite length_map; lia].
      * apply Forall_forall. intros x Hx.
        assert (Hfl : length (List.filter (fun x : DownloadTask * result unit => is_err (snd x)) an)
                      = length an) by lia.
        apply (proj1 (forallb_forall _ an) (filter_length_forallb _ an Hfl) x
          (proj1 (list_elem_of_In _ _) Hx)).
    + reflexivity.
  - apply Nat.eqb_neq in E.
    split; [exact Hsub |]. split; [| split; [discriminate | split; [exact Hstatic | exact Hmono]]].
    split; [discriminate |].
    intros [Hm HF]. exfalso. apply E.
    assert (Hid : List.filter (fun x : DownloadTask * result unit => is_err (snd x)) an = an).
    { apply forallb_filter_id. apply forallb_forall. intros x Hx.
      exact (proj1 (Forall_forall _ an) HF x (proj2 (list_elem_of_In _ _) Hx)). }
    rewrite Hf, Hid, <- Hm, length_map. reflexivity.
Qed.

Lemma process_download_tasks_skip_outcome_witness :
  Some tt = Some tt /\
  process_download_tasks_skip unit (fun _ w => (Err TransportError, w))
    (fun _ => {[ "a.mp4"%string := [x00] ]}) Some [skip_task_a; skip_task_b] tt =
    (None, [(skip_task_b, Err TransportError)]) /\
  (map fst [(skip_task_b, Err (A := unit) TransportError)] `sublist_of` [skip_task_a; skip_task_b] /\
   (None = Some AllTasksFailedMsg <->
      map fst [(skip_task_b, Err (A := unit) TransportError)] = [skip_task_a; skip_task_b] /\
      Forall (fun a => is_err (snd a) = true) [(skip_task_b, Err (A := unit) TransportError)]) /\
   None <> Some CreateOutputDirFailed /\
   ((forall (t : DownloadTask) (w1 : unit),
       (fun _ : unit => {[ "a.mp4"%string := [x00] ]} : dir)
         (snd ((fun _ w => (Err (A := unit) TransportError, w)) t w1)) =
       (fun _ : unit => {[ "a.mp4"%string := [x00] ]} : dir) w1) ->
    map fst [(skip_task_b, Err (A := unit) TransportError)] =
    List.filter (fun t => negb (is_already_downloaded t {[ "a.mp4"%string := [x00] ]}))
      [skip_task_a; skip_task_b]) /\
   ((forall (t : DownloadTask) (w1 : unit) t',
       is_already_downloaded t' {[ "a.mp4"%string := [x00] ]} = true ->
       is_already_downloaded t' {[ "a.mp4"%string := [x00] ]} = true) ->
    forall t, is_already_downloaded t {[ "a.mp4"%string := [x00] ]} = true ->
    ~ In t (map fst [(skip_task_b, Err (A := unit) TransportError)]))).
Proof.
  assert (H2 : process_download_tasks_skip unit (fun _ w => (Err TransportError, w))
    (fun _ => {[ "a.mp4"%string := [x00] ]}) Some [skip_task_a; skip_task_b] tt =
    (None, [(skip_task_b, Err TransportError)])) by reflexivity.
  split; [reflexivity |]. split; [exact H2 |].
  exact (process_download_tasks_skip_outcome unit _ _ Some _ tt tt _ _ eq_refl H2).
Defined.
